(** * Omarchy manual scraper: the chapter pipeline of [src/scraper.py]

    A shallow embedding of [OmarchyScraper]: filename sanitisation, link
    discovery, Markdown post-processing, the metadata ledger, the
    per-chapter unit of work, the completion loop of [run], the
    admission gate that bounds concurrent fetches, the combined file, and
    the discovery with fallbacks of the earlier [omarchy_scraper.py].

    Python [str] values are sequences of Unicode code points, modelled as
    [list N].  The capabilities the scraper calls but does not implement
    (HTTP transport, HTML parsing, HTML-to-Markdown conversion, URL
    resolution, SHA-256, the clock) are parameters of the model. *)

From Stdlib Require Import String Ascii.
From stdpp Require Import gmap list sorting pretty.

Local Open Scope N_scope.

(** ** Strings *)

Abbreviation str := (list N).

(** Code points of an ASCII literal. *)
Definition py (s : string) : str := N_of_ascii <$> list_ascii_of_string s.

Definition NL : N := 10.
Definition UNDERSCORE : N := 95.

(** Unicode whitespace as CPython's [Py_UNICODE_ISSPACE] has it; both the
    [\s] class of [re] on [str] patterns and [str.strip()] use it. *)
Definition is_space (c : N) : bool :=
  ((9 <=? c) && (c <=? 13)) || ((28 <=? c) && (c <=? 32))
  || (c =? 133) || (c =? 160) || (c =? 5760)
  || ((8192 <=? c) && (c <=? 8202))
  || (c =? 8232) || (c =? 8233) || (c =? 8239) || (c =? 8287) || (c =? 12288).

(** The character class of the first substitution: the nine characters
    less-than, greater-than, colon, double quote, slash, backslash, bar,
    question mark and asterisk. *)
Definition hostile (c : N) : bool :=
  bool_decide (c ∈ [60; 62; 58; 34; 47; 92; 124; 63; 42]).

(** The characters of the [strip] call: dot and underscore. *)
Definition dot_or_underscore (c : N) : bool := (c =? 46) || (c =? 95).

Fixpoint lstrip (p : N -> bool) (s : str) : str :=
  match s with
  | c :: s' => if p c then lstrip p s' else s
  | [] => []
  end.

Definition rstrip (p : N -> bool) (s : str) : str :=
  reverse (lstrip p (reverse s)).

(** [s.strip(chars)]: drop the characters of the set at both ends. *)
Definition py_strip (p : N -> bool) (s : str) : str := rstrip p (lstrip p s).

(** [s.startswith(prefix)]. *)
Fixpoint startswith (prefix s : str) : bool :=
  match prefix, s with
  | [], _ => true
  | a :: prefix', c :: s' => (a =? c) && startswith prefix' s'
  | _ :: _, [] => false
  end.

(** The remainder of [s] after a literal prefix. *)
Fixpoint after_prefix (prefix s : str) : option str :=
  match prefix, s with
  | [], _ => Some s
  | a :: prefix', c :: s' => if a =? c then after_prefix prefix' s' else None
  | _ :: _, [] => None
  end.

(** [needle in s] for a non-empty needle. *)
Fixpoint contains (needle s : str) : bool :=
  startswith needle s ||
  match s with
  | [] => false
  | _ :: s' => contains needle s'
  end.

(** ** Substitution by scanning

    [re.sub] and [str.replace] scan left to right: where the pattern
    matches, the replacement is emitted and the scan resumes behind the
    match; elsewhere one character is copied.  A matcher returns what is
    left of the input behind a match that starts at its head.  Every
    pattern of the scraper consumes at least one character, so one unit
    of fuel per character is enough ([sub_scan_cons]). *)

Definition matcher := str -> option str.

Fixpoint sub_scan_from (fuel : nat) (m : matcher) (repl s : str) : str :=
  match fuel with
  | O => s
  | S fuel' =>
      match s with
      | [] => []
      | c :: s' =>
          match m s with
          | Some rest => repl ++ sub_scan_from fuel' m repl rest
          | None => c :: sub_scan_from fuel' m repl s'
          end
      end
  end.

Definition sub_scan (m : matcher) (repl s : str) : str :=
  sub_scan_from (length s) m repl s.

(** The regular expressions in use are sequences of character classes,
    each taken once, or under a greedy [*] or [+]. *)
Inductive atom :=
  | One (p : N -> bool)
  | Star (p : N -> bool)
  | Plus (p : N -> bool).

(** Greedy repetition with backtracking: take as many characters of the
    class as possible, give back one at a time until the rest of the
    pattern matches. *)
Fixpoint star_greedy (p : N -> bool) (k : matcher) (s : str) : option str :=
  match s with
  | c :: s' =>
      if p c then
        match star_greedy p k s' with
        | Some r => Some r
        | None => k s
        end
      else k s
  | [] => k []
  end.

Fixpoint match_here (pat : list atom) : matcher :=
  match pat with
  | [] => fun s => Some s
  | One p :: pat' => fun s =>
      match s with
      | c :: s' => if p c then match_here pat' s' else None
      | [] => None
      end
  | Star p :: pat' => star_greedy p (match_here pat')
  | Plus p :: pat' => fun s =>
      match s with
      | c :: s' => if p c then star_greedy p (match_here pat') s' else None
      | [] => None
      end
  end.

(** [re.sub(pattern, repl, s)]. *)
Definition re_sub (pat : list atom) (repl s : str) : str :=
  sub_scan (match_here pat) repl s.

(** [s.replace(old, new)] for a non-empty [old]. *)
Definition str_replace (old new s : str) : str :=
  sub_scan (after_prefix old) new s.

(** A matcher that always takes at least one character, the least
    number of characters a pattern takes, and patterns that take
    whitespace only. *)

(** A matcher that never matches the empty string. *)
Definition consuming (m : matcher) : Prop :=
  ∀ s rest, m s = Some rest → (length rest < length s)%nat.

(** The least number of characters a pattern takes. *)
Fixpoint min_length (pat : list atom) : nat :=
  match pat with
  | [] => 0
  | One _ :: pat' => S (min_length pat')
  | Star _ :: pat' => min_length pat'
  | Plus _ :: pat' => S (min_length pat')
  end.

Definition atom_class (a : atom) : N -> bool :=
  match a with One p | Star p | Plus p => p end.

(** A pattern all of whose classes hold whitespace only. *)
Definition spacey (pat : list atom) : Prop :=
  Forall (λ a, ∀ c, atom_class a c = true → is_space c = true) pat.

(** ** Filename sanitisation *)

Definition RE_HOSTILE : list atom := [One hostile].
Definition RE_SPACES : list atom := [Plus is_space].

Definition _sanitize_filename (title : str) : str :=
  let sanitized := re_sub RE_HOSTILE [UNDERSCORE] title in
  let sanitized := re_sub RE_SPACES [UNDERSCORE] sanitized in
  let sanitized := py_strip dot_or_underscore sanitized in
  if bool_decide (100 < length sanitized)%nat then take 100 sanitized
  else sanitized.

(** The name under which a chapter is saved. *)
Definition chapter_filename (title : str) : str :=
  _sanitize_filename title ++ py ".md".

(** ** Link discovery: the title of an anchor *)

Definition OPEN_PREFIX : str := py "Open ".

Definition clean_title (text : str) : str :=
  if startswith OPEN_PREFIX text then str_replace OPEN_PREFIX [] text
  else text.

(** ** Results and errors

    [ScraperError] carries a message; a call either returns or raises. *)

Inductive result (A : Type) :=
  | Ok (a : A)
  | Raise (message : str).
Arguments Ok {A} a.
Arguments Raise {A} message.

Definition is_ok {A} (r : result A) : bool :=
  match r with Ok _ => true | Raise _ => false end.

(** ** Configuration ([config.py]) *)

Record Config := {
  base_url : str;
  query_param : str;
  max_concurrent : Z;
}.

Definition default_config : Config := {|
  base_url := py "https://learn.omacom.io/2/the-omarchy-manual";
  query_param := [];
  max_concurrent := 5;
|}.

(** ** The metadata ledger *)

Record entry := {
  entry_title : str;
  entry_filename : str;
  entry_hash : str;
  entry_last_updated : str;
  entry_url : str;
}.

Abbreviation ledger := (gmap str entry).

(** Lines 207 to 217 of [_process_chapter]: read the stored hash (the
    empty string when the URL has no entry), compare, overwrite. *)
Definition record_and_compare (metadata : ledger)
    (url title filename content_hash now : str) : bool * ledger :=
  let old_hash :=
    match metadata !! url with
    | Some e => entry_hash e
    | None => []
    end in
  let changed := negb (bool_decide (content_hash = old_hash)) in
  (changed,
   <[url := {| entry_title := title; entry_filename := filename;
               entry_hash := content_hash; entry_last_updated := now;
               entry_url := url |}]> metadata).

(** [_load_metadata]: a missing or unreadable file gives the empty
    ledger.  The file is [None] when missing or corrupt. *)
Definition _load_metadata (metadata_file : option ledger) : ledger :=
  match metadata_file with
  | Some m => m
  | None => ∅
  end.

(** [_save_metadata]: nothing is written in a dry run. *)
Definition _save_metadata (dry_run : bool) (metadata : ledger)
    (metadata_file : option ledger) : option ledger :=
  if dry_run then metadata_file else Some metadata.

(** ** Markdown clean-up *)

Definition is_newline (c : N) : bool := c =? NL.

(** The pattern of line 189: a newline, whitespace, a newline,
    whitespace, a newline. *)
Definition RE_BLANKS : list atom :=
  [One is_newline; Star is_space; One is_newline; Star is_space; One is_newline].

Definition clean_markdown (markdown_content : str) : str :=
  py_strip is_space (re_sub RE_BLANKS [NL; NL] markdown_content).

(** ** Pages of paragraphs

    The vocabulary for texts that differ in their blank lines only. *)

Definition all_space (s : str) : Prop := Forall (λ c, is_space c = true) s.

(** Whitespace that stays within its line. *)
Definition horizontal (s : str) : Prop :=
  Forall (λ c, is_space c = true ∧ is_newline c = false) s.

(** One empty line, or two or more blank lines, which may hold
    whitespace: from a newline to a newline. *)
Inductive blank_lines : str → Prop :=
  | one_blank_line : blank_lines [NL; NL]
  | more_blank_lines m : all_space m → NL ∈ m → blank_lines (NL :: m ++ [NL]).

(** A paragraph begins and ends with a character that is not whitespace;
    in between it is arbitrary. *)
Definition starts_solid (s : str) : bool :=
  match s with
  | c :: _ => negb (is_space c)
  | [] => false
  end.

Definition ends_solid (s : str) : bool := starts_solid (reverse s).

Definition paragraph (s : str) : Prop :=
  starts_solid s = true ∧ ends_solid s = true.

(** A first paragraph and further paragraphs, each behind its gap. *)
Fixpoint page (p0 : str) (rest : list (str * str)) : str :=
  match rest with
  | [] => p0
  | (gap, p) :: rest' => p0 ++ gap ++ page p rest'
  end.

(** What two pages that differ in their blank lines share at one place:
    the whitespace that ends the line before the gap, the whitespace that
    begins the line behind it, and the paragraph that follows. *)
Record slot := {
  gap_before : str;
  gap_after : str;
  para : str;
}.

Definition well_formed (s : slot) : Prop :=
  horizontal (gap_before s) ∧ horizontal (gap_after s) ∧ paragraph (para s).

(** A gap and a paragraph of a page fill a slot. *)
Definition fills (s : slot) (gp : str * str) : Prop :=
  gp.2 = para s
  ∧ ∃ blank, blank_lines blank ∧ gp.1 = gap_before s ++ blank ++ gap_after s.

Definition collapse_blanks (s : str) : str := re_sub RE_BLANKS [NL; NL] s.

(** The page with one empty line in every gap. *)
Definition normal_page (p0 : str) (slots : list slot) : str :=
  page (collapse_blanks p0)
    ((λ s, (gap_before s ++ [NL; NL] ++ gap_after s, collapse_blanks (para s)))
       <$> slots).

(** The number of newlines of a text, and its characters that are not
    whitespace. *)
Definition newlines (s : str) : nat :=
  length (filter (λ c, is_newline c = true) s).

Definition solid_text (s : str) : str := filter (λ c, is_space c = false) s.

(** ** Link discovery *)

Record anchor := {
  href : option str;
  text : str;
}.

Definition NAMESPACE_MARKER : str := py "/the-omarchy-manual/".

Definition nonempty (s : str) : bool :=
  match s with [] => false | _ :: _ => true end.

(** What the HTTP transport answers to a GET. *)
Inductive http_outcome :=
  | Response (status : N) (reason body : str)
  | ClientError (message : str)
  | OtherError (message : str).

(** ** The combined file *)

(** [sep.join(parts)]. *)
Fixpoint str_join (sep : str) (parts : list str) : str :=
  match parts with
  | [] => []
  | p :: rest =>
      match rest with
      | [] => p
      | _ :: _ => p ++ sep ++ str_join sep rest
      end
  end.

(** The heading of a chapter in the combined file, from its filename. *)
Definition chapter_heading (filename : str) : str :=
  str_replace (py "_") (py " ") (str_replace (py ".md") [] filename).

(** The list [combined_content]; [generated] is the time of the run as
    [strftime] prints it. *)
Definition combined_content (generated : str) (results : list (str * str))
    : list str :=
  [ py "# The Omarchy Manual - Complete" ++ [NL];
    py "*Generated on " ++ generated ++ py "*" ++ [NL];
    py "---" ++ [NL] ]
  ++ (results ≫= λ '(filename, content),
        [ [NL] ++ py "# " ++ chapter_heading filename ++ [NL];
          content;
          [NL] ++ py "---" ++ [NL] ]).

(** What [_create_combined_file] does: a real run saves the parts joined
    by newlines; a dry run announces the length of the parts put
    together. *)
Inductive combined_outcome :=
  | Saved (text : str)
  | Announced (characters : nat).

Definition _create_combined_file (dry_run : bool) (generated : str)
    (results : list (str * str)) : combined_outcome :=
  if dry_run then Announced (length (concat (combined_content generated results)))
  else Saved (str_join [NL] (combined_content generated results)).

(** The shape of the saved document: a header, then one block per
    chapter. *)
Definition combined_header (generated : str) : str :=
  py "# The Omarchy Manual - Complete" ++ [NL; NL]
  ++ py "*Generated on " ++ generated ++ py "*" ++ [NL; NL]
  ++ py "---" ++ [NL].

Definition chapter_block (result : str * str) : str :=
  [NL; NL] ++ py "# " ++ chapter_heading result.1 ++ [NL; NL]
  ++ result.2 ++ [NL; NL] ++ py "---" ++ [NL].

(** A character of a plain word: neither hostile nor whitespace, and
    neither an underscore nor a dot. *)
Definition word_char (c : N) : bool :=
  negb (hostile c) && negb (is_space c) && negb (c =? 95) && negb (c =? 46).

Definition plain_word (w : str) : Prop :=
  w ≠ [] ∧ ∀ c, c ∈ w → word_char c = true.

(** The capabilities the scraper relies on. *)
Class Capabilities := {
  (** [session.get(url)] with the status, reason and text of the answer. *)
  http_get : str -> http_outcome;
  (** [soup.select('a.toc__link')] on the parsed page: per anchor its
      [href] attribute and its stripped text. *)
  select_toc_links : str -> list anchor;
  (** [urllib.parse.urljoin]. *)
  urljoin : str -> str -> str;
  (** The Markdown of the content element of a page ([<main>] or a
      fallback, unwanted elements removed, ATX headings), [None] when the
      page has no content element. *)
  main_markdown : str -> option str;
  (** Hex digest of the SHA-256 of the UTF-8 encoding. *)
  sha256_hex : str -> str;
  (** What [open(chapter_file, 'w')] raises for a file name in the
      chapter directory (a name the file system refuses, for one), [None]
      when the file opens. *)
  open_error : str -> option str;
}.

Section Scraper.

Context `{Capabilities}.

Definition _calculate_hash (content : str) : str := sha256_hex content.

Definition _fetch_page (session : bool) (url : str) : result str :=
  if negb session then Raise (py "Session not initialized")
  else
    match http_get url with
    | Response status reason body =>
        if negb (status =? 200) then
          Raise (py "Unexpected error fetching " ++ url ++ py ": "
                 ++ py "HTTP " ++ py (pretty status) ++ py " " ++ reason
                 ++ py " for " ++ url ++ py ". Response: "
                 ++ take 200 body ++ py "...")
        else Ok body
    | ClientError e => Raise (py "Failed to fetch " ++ url ++ py ": " ++ e)
    | OtherError e =>
        Raise (py "Unexpected error fetching " ++ url ++ py ": " ++ e)
    end.

Definition _extract_content (html : str) : result str :=
  match main_markdown html with
  | None => Raise (py "Could not find main content element")
  | Some markdown_content => Ok (clean_markdown markdown_content)
  end.

(** The URL of an anchor, lines 144 to 149. *)
Definition resolve_href (config : Config) (href : str) : str :=
  if startswith (py "/") href then urljoin (base_url config) href
  else if startswith (py "http") href then href
  else urljoin (base_url config ++ query_param config) href.

(** One turn of the loop over the anchors. *)
Definition add_link (config : Config) (chapter_links : list (str * str))
    (link : anchor) : list (str * str) :=
  match href link with
  | Some h =>
      if nonempty h && nonempty (text link) then
        let clean := clean_title (text link) in
        let full_href := resolve_href config h in
        if bool_decide (full_href ∉ chapter_links.*2)
           && contains NAMESPACE_MARKER full_href
           && bool_decide (clean ∉ [ []; py "Open" ])
        then chapter_links ++ [(clean, full_href)]
        else chapter_links
      else chapter_links
  | None => chapter_links
  end.

(** The part of [extract_chapter_links] behind the fetch. *)
Definition links_of_page (config : Config) (content : str)
    : result (list (str * str)) :=
  let toc_links := select_toc_links content in
  let chapter_links := foldl (add_link config) [] toc_links in
  match chapter_links with
  | [] => Raise (py "No chapter links found. The website structure may have changed.")
  | _ :: _ => Ok chapter_links
  end.

Definition extract_chapter_links (config : Config) (session : bool)
    : result (list (str * str)) :=
  match _fetch_page session (base_url config ++ query_param config) with
  | Raise e => Raise (py "Failed to fetch base page: " ++ e)
  | Ok content => links_of_page config content
  end.

(** ** One chapter

    The ledger is threaded through: the call returns its result and the
    ledger it leaves behind. *)
Definition _process_chapter (session : bool) (metadata : ledger)
    (title url now : str) : result (str * str * bool) * ledger :=
  match _fetch_page session url with
  | Raise e =>
      (Raise (py "Error processing chapter '" ++ title ++ py "': " ++ e),
       metadata)
  | Ok html_content =>
      match _extract_content html_content with
      | Raise e =>
          (Raise (py "Error processing chapter '" ++ title ++ py "': " ++ e),
           metadata)
      | Ok markdown_content =>
          let content_hash := _calculate_hash markdown_content in
          let filename := _sanitize_filename title ++ py ".md" in
          let '(changed, metadata') :=
            record_and_compare metadata url title filename content_hash now in
          (Ok (filename, markdown_content, changed), metadata')
      end
  end.

(** What one chapter yields when all goes well; it does not depend on
    the ledger. *)
Definition chapter_content (session : bool) (url : str) : option str :=
  match _fetch_page session url with
  | Raise _ => None
  | Ok html_content =>
      match _extract_content html_content with
      | Raise _ => None
      | Ok markdown_content => Some markdown_content
      end
  end.

(** ** The completion loop of [run] *)

Inductive output :=
  | Warning (message : str)
  | WouldSave (filename : str).

(** The state of the completion loop.  [raised] holds the exception
    that has left the loop, if any: the loop catches [ScraperError] only,
    so what [open] raises in line 274 ends it. *)
Record loop_state := {
  metadata : ledger;
  results_dict : gmap nat (str * str);
  changed_chapters : list str;
  chapter_files : gmap str str;
  printed : list output;
  raised : option str;
}.

Definition start (m : ledger) (files : gmap str str) : loop_state := {|
  metadata := m; results_dict := ∅; changed_chapters := [];
  chapter_files := files; printed := []; raised := None;
|}.

(** The index under which a finished chapter is filed: the first
    chapter whose filename is the one returned. *)
Definition original_index (chapter_links : list (str * str))
    (filename : str) : option nat :=
  fst <$> list_find (λ link, _sanitize_filename link.1 ++ py ".md" = filename)
            chapter_links.

(** The body of the loop over [asyncio.as_completed], for the task of
    chapter [i]; [now] is the time at which that task ran.  Once an
    exception has left the loop no further task is looked at.  When the
    chapter file does not open, the ledger, the results and the list of
    changed chapters have their new values already (lines 258 to 267),
    the file is not written, and the exception leaves the loop. *)
Definition on_completed (chapter_links : list (str * str)) (dry_run : bool)
    (clock : nat -> str) (st : loop_state) (i : nat) : loop_state :=
  match raised st with
  | Some _ => st
  | None =>
      match chapter_links !! i with
      | None => st
      | Some (title, url) =>
          match _process_chapter true (metadata st) title url (clock i) with
          | (Ok (filename, content, changed), metadata') =>
              let results' :=
                match original_index chapter_links filename with
                | Some i0 => <[i0 := (filename, content)]> (results_dict st)
                | None => results_dict st
                end in
              let changed' :=
                if changed then changed_chapters st ++ [filename]
                else changed_chapters st in
              if dry_run then
                {| metadata := metadata';
                   results_dict := results';
                   changed_chapters := changed';
                   chapter_files := chapter_files st;
                   printed := printed st ++ [WouldSave filename];
                   raised := None |}
              else
                match open_error filename with
                | Some e =>
                    {| metadata := metadata';
                       results_dict := results';
                       changed_chapters := changed';
                       chapter_files := chapter_files st;
                       printed := printed st;
                       raised := Some e |}
                | None =>
                    {| metadata := metadata';
                       results_dict := results';
                       changed_chapters := changed';
                       chapter_files := <[filename := content]> (chapter_files st);
                       printed := printed st;
                       raised := None |}
                end
          | (Raise e, metadata') =>
              {| metadata := metadata';
                 results_dict := results_dict st;
                 changed_chapters := changed_chapters st;
                 chapter_files := chapter_files st;
                 printed := printed st ++ [Warning e];
                 raised := None |}
          end
      end
  end.

(** The tasks complete in the order [order]. *)
Definition process_all (chapter_links : list (str * str)) (dry_run : bool)
    (clock : nat -> str) (order : list nat) (st : loop_state) : loop_state :=
  foldl (on_completed chapter_links dry_run clock) st order.

(** Line 285: the results by ascending index. *)
Definition sorted_keys (d : gmap nat (str * str)) : list nat :=
  merge_sort Nat.le (map_to_list d).*1.

Definition ordered_results (d : gmap nat (str * str)) : list (str * str) :=
  omap (λ i, d !! i) (sorted_keys d).

(** ** The whole of [run] *)

Record run_report := {
  report_links : list (str * str);
  report_results : list (str * str);
  report_state : loop_state;
  report_metadata_file : option ledger;
}.

(** A run returns, or it raises before the loop ([Aborted]), or it
    raises what has left the loop ([Interrupted], with the state the loop
    was in: the combined file and the metadata file are not written), or
    it never ends ([Blocked]). *)
Inductive run_outcome :=
  | Returned (report : run_report)
  | Aborted (message : str)
  | Interrupted (message : str) (st : loop_state)
  | Blocked.

(** [OmarchyScraper(config, dry_run).run()] over the metadata file and
    the chapter directory left by earlier runs.  A negative semaphore
    value is refused by [asyncio.Semaphore]; with the value zero no
    task is ever admitted and the loop waits forever. *)
Definition run (config : Config) (dry_run : bool)
    (metadata_file : option ledger) (files : gmap str str)
    (clock : nat -> str) (order : list nat) : run_outcome :=
  let metadata0 := _load_metadata metadata_file in
  match extract_chapter_links config true with
  | Raise e => Aborted e
  | Ok chapter_links =>
      if (max_concurrent config <? 0)%Z then
        Aborted (py "Semaphore initial value must be >= 0")
      else if (max_concurrent config =? 0)%Z then Blocked
      else
        let st := process_all chapter_links dry_run clock order
                    (start metadata0 files) in
        match raised st with
        | Some e => Interrupted e st
        | None =>
            Returned {|
              report_links := chapter_links;
              report_results := ordered_results (results_dict st);
              report_state := st;
              report_metadata_file :=
                _save_metadata dry_run (metadata st) metadata_file;
            |}
        end
  end.

(** ** What the loop establishes

    Predicates on the discovered list, the ledger and the loop state in
    which the properties below are stated. *)

(** What an anchor offers towards the list: its title and URL when it
    has an [href] and a text, its URL holds the marker and its title is
    neither empty nor the leftover [Open]. *)
Definition candidate (config : Config) (link : anchor) : option (str * str) :=
  match href link with
  | Some h =>
      if nonempty h && nonempty (text link)
         && contains NAMESPACE_MARKER (resolve_href config h)
         && bool_decide (clean_title (text link) ∉ [ []; py "Open" ])
      then Some (clean_title (text link), resolve_href config h)
      else None
  | None => None
  end.

(** The list built from the candidates read so far. *)
Record discovered (cands links : list (str * str)) : Prop := {
  disc_nodup : NoDup links.*2;
  disc_order : links `sublist_of` cands;
  disc_covers : ∀ t u, (t, u) ∈ cands → u ∈ links.*2;
  disc_first : ∀ t u, (t, u) ∈ links →
    ∃ i, cands !! i = Some (t, u)
         ∧ ∀ j t', (j < i)%nat → cands !! j ≠ Some (t', u);
}.

(** What one chapter contributes to the results. *)
Definition chapter_result (link : str * str) : option (str * str) :=
  (λ content, (chapter_filename link.1, content)) <$> chapter_content true link.2.





(** The digest the ledger holds for a URL, empty when it holds none. *)
Definition stored_hash (m : ledger) (url : str) : str :=
  match m !! url with
  | Some e => entry_hash e
  | None => []
  end.

(** The filename chapter [i] adds to the list of changed chapters when it
    is compared with the ledger [m]. *)
Definition reported_changed (links : list (str * str)) (m : ledger)
    (i : nat) : option str :=
  match links !! i with
  | Some (title, url) =>
      match chapter_content true url with
      | Some content =>
          if bool_decide (_calculate_hash content = stored_hash m url)
          then None
          else Some (chapter_filename title)
      | None => None
      end
  | None => None
  end.

(** Chapter [i] is in the list and cannot be processed. *)
Definition fails (links : list (str * str)) (i : nat) : bool :=
  match links !! i with
  | Some (_, url) =>
      match chapter_content true url with
      | Some _ => false
      | None => true
      end
  | None => false
  end.

(** Every entry is filed under its own URL and names the file of its
    title. *)
Definition consistent (m : ledger) : Prop :=
  ∀ url e, m !! url = Some e →
    entry_url e = url ∧ entry_filename e = chapter_filename (entry_title e).

Definition is_warning (o : output) : bool :=
  match o with
  | Warning _ => true
  | WouldSave _ => false
  end.

Definition warnings (st : loop_state) : list output :=
  filter (λ o, is_warning o = true) (printed st).

End Scraper.

(** ** The earlier scraper ([omarchy_scraper.py])

    The single-file scraper kept beside the package reads its settings
    from the constants of the top-level [config.py].  Its discovery
    begins like the one above; when the table of contents gives no
    chapter it falls back on six other selectors, of which the first that
    selects anything is used, and at last on every anchor of the content
    element. *)

Module Legacy.

Definition BASE_URL : str := py "https://learn.omacom.io/2/the-omarchy-manual".
Definition QUERY_PARAM : str := [].

(** The selectors of the fallback: anchors whose [href] holds [chapter],
    anchors whose [href] holds [section], anchors below the class
    [chapter-link], below the class [toc], below [nav], and anchors of
    [main] whose [href] begins with [/manual/]. *)
Inductive selector :=
  | HrefChapter
  | HrefSection
  | ChapterLink
  | Toc
  | Nav
  | MainManual.

Definition link_selectors : list selector :=
  [HrefChapter; HrefSection; ChapterLink; Toc; Nav; MainManual].

Section LegacyDiscovery.

Context `{Capabilities}.

(** [soup.select(selector)] for a selector of the fallback, and the
    anchors with an [href] of [soup.find('main') or soup.find('body')],
    [None] when the page has neither element. *)
Variable soup_select : selector -> str -> list anchor.
Variable main_anchors : str -> option (list anchor).

Definition full_href (href : str) : str :=
  if startswith (py "/") href then urljoin BASE_URL href
  else if startswith (py "http") href then href
  else urljoin (BASE_URL ++ QUERY_PARAM) href.

(** One turn of the loop over the anchors of the table of contents. *)
Definition add_toc_link (chapter_links : list (str * str)) (link : anchor)
    : list (str * str) :=
  match href link with
  | Some h =>
      if nonempty h && nonempty (text link) then
        let clean := clean_title (text link) in
        if bool_decide (full_href h ∉ chapter_links.*2)
           && contains NAMESPACE_MARKER (full_href h)
           && bool_decide (clean ∉ [ []; py "Open" ])
        then chapter_links ++ [(clean, full_href h)]
        else chapter_links
      else chapter_links
  | None => chapter_links
  end.

(** One turn of the loop over the anchors of a fallback selector: the
    text is taken as it is and the URL is not filtered. *)
Definition add_selected_link (chapter_links : list (str * str))
    (link : anchor) : list (str * str) :=
  match href link with
  | Some h =>
      if nonempty h && nonempty (text link) then
        if bool_decide (full_href h ∉ chapter_links.*2)
        then chapter_links ++ [(text link, full_href h)]
        else chapter_links
      else chapter_links
  | None => chapter_links
  end.

(** One turn of the loop over the anchors of the content element: texts
    of five characters or fewer are passed over. *)
Definition add_main_link (chapter_links : list (str * str))
    (link : anchor) : list (str * str) :=
  match href link with
  | Some h =>
      if nonempty h && nonempty (text link) && (5 <? length (text link))%nat
      then
        if bool_decide (full_href h ∉ chapter_links.*2)
        then chapter_links ++ [(text link, full_href h)]
        else chapter_links
      else chapter_links
  | None => chapter_links
  end.

(** The loop over the selectors stops at the first that selects
    anything. *)
Fixpoint first_selected (selectors : list selector) (content : str)
    : list anchor :=
  match selectors with
  | [] => []
  | sel :: selectors' =>
      match soup_select sel content with
      | [] => first_selected selectors' content
      | link :: links => link :: links
      end
  end.

(** The part of [extract_chapter_links] behind the fetch. *)
Definition links_of_page (content : str) : result (list (str * str)) :=
  let chapter_links := foldl add_toc_link [] (select_toc_links content) in
  let chapter_links :=
    match chapter_links with
    | _ :: _ => chapter_links
    | [] =>
        let chapter_links :=
          foldl add_selected_link [] (first_selected link_selectors content) in
        match chapter_links with
        | _ :: _ => chapter_links
        | [] =>
            match main_anchors content with
            | Some links => foldl add_main_link [] links
            | None => []
            end
        end
    end in
  match chapter_links with
  | [] =>
      Raise (py "No chapter links found. You may need to adjust the link extraction logic.")
  | _ :: _ => Ok chapter_links
  end.

(** [fetch_page] of the earlier scraper is [_fetch_page] line by line. *)
Definition extract_chapter_links (session : bool)
    : result (list (str * str)) :=
  match _fetch_page session (BASE_URL ++ QUERY_PARAM) with
  | Raise e => Raise (py "Failed to fetch base page: " ++ e)
  | Ok content => links_of_page content
  end.

(** What an anchor offers in the fallback tiers. *)
Definition selected_candidate (link : anchor) : option (str * str) :=
  match href link with
  | Some h =>
      if nonempty h && nonempty (text link)
      then Some (text link, full_href h) else None
  | None => None
  end.

Definition main_candidate (link : anchor) : option (str * str) :=
  match href link with
  | Some h =>
      if nonempty h && nonempty (text link) && (5 <? length (text link))%nat
      then Some (text link, full_href h) else None
  | None => None
  end.

End LegacyDiscovery.

End Legacy.

(** ** The admission gate

    Every chapter task runs its body inside [async with semaphore], so a
    task is queued until it holds a permit, fetches while it holds one and
    gives it back when the body returns or raises.  The state is the
    value of the semaphore and the stage of every task. *)

Module Gate.

Inductive stage := Queued | Fetching | Completed | Failed.

Global Instance stage_eq_dec : EqDecision stage.
Proof. solve_decision. Defined.

Record state := {
  permits : nat;
  tasks : list stage;
}.

Inductive event :=
  | Acquire (i : nat)
  | Return (i : nat)
  | Fail (i : nat).

(** [asyncio.Semaphore(limit)] and one queued task per chapter. *)
Definition init (limit n : nat) : state :=
  {| permits := limit; tasks := replicate n Queued |}.

Definition fire (st : state) (ev : event) : option state :=
  match ev with
  | Acquire i =>
      match tasks st !! i, permits st with
      | Some Queued, S k =>
          Some {| permits := k; tasks := <[i := Fetching]> (tasks st) |}
      | _, _ => None
      end
  | Return i =>
      match tasks st !! i with
      | Some Fetching =>
          Some {| permits := S (permits st);
                  tasks := <[i := Completed]> (tasks st) |}
      | _ => None
      end
  | Fail i =>
      match tasks st !! i with
      | Some Fetching =>
          Some {| permits := S (permits st);
                  tasks := <[i := Failed]> (tasks st) |}
      | _ => None
      end
  end.

Fixpoint exec (st : state) (trace : list event) : option state :=
  match trace with
  | [] => Some st
  | ev :: trace' =>
      match fire st ev with
      | Some st' => exec st' trace'
      | None => None
      end
  end.

Definition count (s : stage) (st : state) : nat :=
  length (filter (λ t, t = s) (tasks st)).

(** The number of fetches in flight. *)
Definition fetching (st : state) : nat := count Fetching st.

Definition finished (t : stage) : Prop := t = Completed ∨ t = Failed.


(** Permits and fetches in flight add up to the limit, the number of
    tasks is fixed, and every event uses up one unit of the work left:
    two units for a queued task, one for a fetching task. *)
Definition balance (st : state) : nat := permits st + fetching st.
Definition work_left (st : state) : nat := 2 * count Queued st + fetching st.

End Gate.

(** The events of a trace that admit task [i], and those that end it. *)
Definition admits (i : nat) (ev : Gate.event) : bool :=
  match ev with
  | Gate.Acquire j => bool_decide (j = i)
  | Gate.Return _ | Gate.Fail _ => false
  end.

Definition ends (i : nat) (ev : Gate.event) : bool :=
  match ev with
  | Gate.Acquire _ => false
  | Gate.Return j | Gate.Fail j => bool_decide (j = i)
  end.

Definition admissions (i : nat) (trace : list Gate.event) : nat :=
  length (filter (λ ev, admits i ev = true) trace).

Definition endings (i : nat) (trace : list Gate.event) : nat :=
  length (filter (λ ev, ends i ev = true) trace).

(** Task [i] has left the queue; task [i] is over. *)
Definition admitted (st : Gate.state) (i : nat) : nat :=
  match Gate.tasks st !! i with
  | Some Gate.Queued | None => 0
  | Some _ => 1
  end.

Definition over (st : Gate.state) (i : nat) : nat :=
  match Gate.tasks st !! i with
  | Some Gate.Completed | Some Gate.Failed => 1
  | _ => 0
  end.

(** ** The sanitisation rule as the specification words it

    Replace each filesystem-hostile character by an underscore, collapse
    each whitespace run to one underscore, trim dots and underscores at
    both ends, keep at most 100 characters. *)

Definition spec_replace_hostile (s : str) : str :=
  (λ c, if hostile c then UNDERSCORE else c) <$> s.

(** [in_run] tells that the previous character was whitespace. *)
Fixpoint spec_collapse_spaces (in_run : bool) (s : str) : str :=
  match s with
  | [] => []
  | c :: s' =>
      if is_space c then
        if in_run then spec_collapse_spaces true s'
        else UNDERSCORE :: spec_collapse_spaces true s'
      else c :: spec_collapse_spaces false s'
  end.

Definition spec_sanitize (title : str) : str :=
  take 100 (py_strip dot_or_underscore
              (spec_collapse_spaces false (spec_replace_hostile title))).

(** ** The namespace test as the specification words it

    The path of the URL begins with the path of the manual. *)

Fixpoint find_after (needle s : str) : option str :=
  match after_prefix needle s with
  | Some rest => Some rest
  | None =>
      match s with
      | [] => None
      | _ :: s' => find_after needle s'
      end
  end.

Fixpoint take_until (p : N -> bool) (s : str) : str :=
  match s with
  | c :: s' => if p c then [] else c :: take_until p s'
  | [] => []
  end.

(** The path of a URL: what follows the authority, up to the query or
    the fragment. *)
Definition spec_url_path (url : str) : str :=
  let rest :=
    match find_after (py "://") url with
    | Some r => lstrip (λ c, negb (c =? 47)) r
    | None => url
    end in
  take_until (λ c, (c =? 63) || (c =? 35)) rest.

Definition spec_in_namespace (config : Config) (url : str) : bool :=
  startswith (spec_url_path (base_url config) ++ py "/") (spec_url_path url).

(** ** A sample site

    A root page with four anchors: a chapter that is served, a chapter
    that answers 404, a search link that only carries the marker in its
    query, and a second anchor for the first chapter. *)

Definition sample_welcome_url : str :=
  py "https://learn.omacom.io/2/the-omarchy-manual/91/welcome".
Definition sample_missing_url : str :=
  py "https://learn.omacom.io/2/the-omarchy-manual/92/missing".
Definition sample_search_url : str :=
  py "https://learn.omacom.io/search?from=/the-omarchy-manual/".

Definition sample_anchors : list anchor := [
  {| href := Some (py "/2/the-omarchy-manual/91/welcome");
     text := py "Open Welcome" |};
  {| href := Some (py "/2/the-omarchy-manual/92/missing");
     text := py "Open Missing" |};
  {| href := Some sample_search_url; text := py "Search" |};
  {| href := Some (py "/2/the-omarchy-manual/91/welcome");
     text := py "Welcome again" |}
].

Definition sample_welcome_page : str :=
  py "Welcome" ++ [NL; NL; NL; NL] ++ py "to Omarchy".
Definition sample_welcome_page' : str :=
  py "Welcome" ++ [NL; NL] ++ py "to Omarchy".

Definition sample_http_get (url : str) : http_outcome :=
  if bool_decide (url = base_url default_config) then
    Response 200 (py "OK") (py "toc")
  else if bool_decide (url = sample_welcome_url) then
    Response 200 (py "OK") sample_welcome_page
  else if bool_decide (url = sample_missing_url) then
    Response 404 (py "Not Found") (py "gone")
  else ClientError (py "unreachable").

(** The length of the UTF-8 encoding, and a chapter directory whose
    file system takes names of at most 255 bytes. *)
Definition utf8_length (s : str) : nat :=
  foldr (λ (c : N) (n : nat),
           ((if (c <? 128)%N then 1 else if (c <? 2048)%N then 2
             else if (c <? 65536)%N then 3 else 4) + n)%nat) 0%nat s.

Definition sample_open_error (name : str) : option str :=
  if (255 <? utf8_length name)%nat
  then Some (py "[Errno 36] File name too long") else None.

Definition sample_site : Capabilities := {|
  http_get := sample_http_get;
  select_toc_links := λ _, sample_anchors;
  urljoin := λ _ h, py "https://learn.omacom.io" ++ h;
  main_markdown := λ html, if nonempty html then Some html else None;
  sha256_hex := λ content, py "sha256:" ++ content;
  open_error := sample_open_error;
|}.




(** A page without a table of contents, whose navigation bar is the
    first thing a fallback selector finds. *)
Definition sample_plain_site : Capabilities := {|
  http_get := sample_http_get;
  select_toc_links := λ _, [];
  urljoin := λ _ h, py "https://learn.omacom.io" ++ h;
  main_markdown := λ html, if nonempty html then Some html else None;
  sha256_hex := λ content, py "sha256:" ++ content;
  open_error := sample_open_error;
|}.

Definition sample_select (sel : Legacy.selector) (content : str)
    : list anchor :=
  match sel with
  | Legacy.Nav =>
      [ {| href := Some (py "/about"); text := py "About" |};
        {| href := Some (py "/about"); text := py "About us" |};
        {| href := None; text := py "Menu" |} ]
  | _ => []
  end.

Definition sample_links : list (str * str) := [
  (py "Welcome", sample_welcome_url);
  (py "Missing", sample_missing_url);
  (py "Search", sample_search_url)
].

Definition sample_clock (i : nat) : str := py "2025-01-01T00:00:0" ++ py (pretty i).

Definition https (url : str) : Prop := startswith (py "https://") url = true.

(** * Properties *)

(** ** Scanning *)

Lemma sub_scan_from_fuel m repl fuel1 :
  consuming m →
  ∀ fuel2 s, (length s ≤ fuel1)%nat → (length s ≤ fuel2)%nat →
    sub_scan_from fuel1 m repl s = sub_scan_from fuel2 m repl s.
Proof.
  intros Hm. induction fuel1 as [|fuel1 IH]; intros fuel2 s H1 H2.
  - destruct s; [|simpl in H1; lia]. by destruct fuel2.
  - destruct s as [|c s]; [by destruct fuel2|].
    destruct fuel2 as [|fuel2]; [simpl in H2; lia|].
    simpl in *. destruct (m (c :: s)) as [rest|] eqn:E.
    + apply Hm in E. simpl in E. f_equal. apply IH; lia.
    + f_equal. apply IH; lia.
Qed.

Lemma sub_scan_nil m repl : sub_scan m repl [] = [].
Proof. reflexivity. Qed.

Lemma sub_scan_match m repl c s rest :
  consuming m → m (c :: s) = Some rest →
  sub_scan m repl (c :: s) = repl ++ sub_scan m repl rest.
Proof.
  intros Hm E. unfold sub_scan. simpl. rewrite E. f_equal.
  apply Hm in E. simpl in E. apply sub_scan_from_fuel; [done|lia|lia].
Qed.

Lemma sub_scan_skip m repl c s :
  m (c :: s) = None → sub_scan m repl (c :: s) = c :: sub_scan m repl s.
Proof. intros E. unfold sub_scan. simpl. by rewrite E. Qed.

Lemma star_greedy_length p (k : matcher) n :
  (∀ s r, k s = Some r → (length r + n ≤ length s)%nat) →
  ∀ s r, star_greedy p k s = Some r → (length r + n ≤ length s)%nat.
Proof.
  intros Hk s. induction s as [|c s IH]; intros r Hr; simpl in Hr.
  - by apply Hk in Hr.
  - destruct (p c); [|by apply Hk in Hr].
    destruct (star_greedy p k s) as [r'|] eqn:E.
    + simplify_eq. specialize (IH _ eq_refl). simpl. lia.
    + by apply Hk in Hr.
Qed.

Lemma match_here_length pat :
  ∀ s r, match_here pat s = Some r → (length r + min_length pat ≤ length s)%nat.
Proof.
  induction pat as [|[p|p|p] pat IH]; intros s r Hr; simpl in *.
  - simplify_eq. lia.
  - destruct s as [|c s]; [done|]. destruct (p c); [|done].
    apply IH in Hr. simpl. lia.
  - by apply (star_greedy_length p _ _ IH) in Hr.
  - destruct s as [|c s]; [done|]. destruct (p c); [|done].
    apply (star_greedy_length p _ _ IH) in Hr. simpl. lia.
Qed.

Lemma match_here_consuming pat :
  (0 < min_length pat)%nat → consuming (match_here pat).
Proof. intros Hpos s r Hr. apply match_here_length in Hr. lia. Qed.

Lemma after_prefix_Some old s r : after_prefix old s = Some r → s = old ++ r.
Proof.
  revert s. induction old as [|a old IH]; intros s Hr; simpl in *.
  - by simplify_eq.
  - destruct s as [|c s]; [done|]. destruct (a =? c) eqn:E; [|done].
    apply N.eqb_eq in E. subst. f_equal. by apply IH.
Qed.

Lemma after_prefix_consuming old : old ≠ [] → consuming (after_prefix old).
Proof.
  intros Hne s r Hr. apply after_prefix_Some in Hr. subst.
  rewrite length_app. destruct old; [done|]. simpl. lia.
Qed.

(** ** Filename sanitisation *)

Lemma re_sub_hostile s :
  re_sub RE_HOSTILE [UNDERSCORE] s = spec_replace_hostile s.
Proof.
  unfold re_sub, spec_replace_hostile.
  induction s as [|c s IH]; [done|]. cbn [fmap list_fmap].
  destruct (hostile c) eqn:E.
  - rewrite (sub_scan_match _ _ _ _ s).
    + by rewrite IH.
    + apply match_here_consuming. simpl. lia.
    + simpl. by rewrite E.
  - rewrite sub_scan_skip; [|simpl; by rewrite E]. by rewrite IH.
Qed.

Lemma star_greedy_all p s : star_greedy p Some s = Some (lstrip p s).
Proof.
  induction s as [|c s IH]; [done|]. simpl. destruct (p c); [|done].
  by rewrite IH.
Qed.

Lemma lstrip_length p s : (length (lstrip p s) ≤ length s)%nat.
Proof.
  induction s as [|c s IH]; [done|]. simpl. destruct (p c); simpl; lia.
Qed.

Lemma spec_collapse_in_run s :
  spec_collapse_spaces true s = spec_collapse_spaces false (lstrip is_space s).
Proof.
  induction s as [|c s IH]; [done|]. simpl.
  destruct (is_space c) eqn:E; [done|]. simpl. by rewrite E.
Qed.

Lemma re_sub_spaces s :
  re_sub RE_SPACES [UNDERSCORE] s = spec_collapse_spaces false s.
Proof.
  unfold re_sub. remember (length s) as n eqn:Hn.
  revert s Hn. induction (lt_wf n) as [n _ IH]. intros s ->.
  destruct s as [|c s]; [done|]. cbn [spec_collapse_spaces].
  destruct (is_space c) eqn:E.
  - rewrite (sub_scan_match _ _ _ _ (lstrip is_space s)).
    + cbn [app]. f_equal. rewrite spec_collapse_in_run.
      eapply IH; [|done]. pose proof (lstrip_length is_space s). simpl. lia.
    + apply match_here_consuming. simpl. lia.
    + simpl. rewrite E. apply star_greedy_all.
  - rewrite sub_scan_skip; [|simpl; by rewrite E].
    f_equal. eapply IH; [|done]. simpl. lia.
Qed.

Lemma sanitize_take title :
  _sanitize_filename title
  = take 100 (py_strip dot_or_underscore
       (re_sub RE_SPACES [UNDERSCORE] (re_sub RE_HOSTILE [UNDERSCORE] title))).
Proof.
  unfold _sanitize_filename. cbv zeta. case_bool_decide; [done|].
  rewrite take_ge; [done|lia].
Qed.

Lemma sanitize_refines title : _sanitize_filename title = spec_sanitize title.
Proof.
  rewrite sanitize_take. unfold spec_sanitize.
  by rewrite re_sub_hostile, re_sub_spaces.
Qed.

Lemma lstrip_suffix p s : lstrip p s `suffix_of` s.
Proof.
  induction s as [|c s IH]; [done|]. simpl. destruct (p c); [|done].
  by apply suffix_cons_r.
Qed.

Lemma lstrip_head p s c rest : lstrip p s = c :: rest → p c = false.
Proof.
  induction s as [|a s IH]; [done|]. simpl. destruct (p a) eqn:E; [done|].
  intros. by simplify_eq.
Qed.

Lemma rstrip_prefix p s : rstrip p s `prefix_of` s.
Proof.
  unfold rstrip. destruct (lstrip_suffix p (reverse s)) as [k Hk].
  exists (reverse k). apply (inj reverse).
  by rewrite reverse_app, !reverse_involutive.
Qed.

Lemma py_strip_elem p s c : c ∈ py_strip p s → c ∈ s.
Proof.
  unfold py_strip. intros Hc.
  destruct (rstrip_prefix p (lstrip p s)) as [k Hk].
  destruct (lstrip_suffix p s) as [k' Hk'].
  rewrite Hk', Hk. set_solver.
Qed.

Lemma py_strip_head p s c rest : py_strip p s = c :: rest → p c = false.
Proof.
  unfold py_strip. intros Hs.
  destruct (rstrip_prefix p (lstrip p s)) as [k Hk].
  rewrite Hs in Hk. by apply lstrip_head in Hk.
Qed.

Lemma spec_collapse_elem b s c :
  c ∈ spec_collapse_spaces b s →
  c = UNDERSCORE ∨ (c ∈ s ∧ is_space c = false).
Proof.
  revert b. induction s as [|a s IH]; intros b; simpl; [set_solver|].
  destruct (is_space a) eqn:E.
  - destruct b; [|rewrite elem_of_cons; intros [->|Hc]; [by left|]];
      intros; destruct (IH true) as [|[??]]; set_solver.
  - rewrite elem_of_cons. intros [->|Hc]; [set_solver|].
    destruct (IH false Hc) as [|[??]]; set_solver.
Qed.

Lemma spec_replace_elem s c : c ∈ spec_replace_hostile s → hostile c = false.
Proof.
  unfold spec_replace_hostile. rewrite list_elem_of_fmap.
  intros (a & -> & _). by destruct (hostile a) eqn:E.
Qed.

Lemma spec_sanitize_elem title c :
  c ∈ spec_sanitize title → hostile c = false ∧ is_space c = false.
Proof.
  unfold spec_sanitize. intros Hc.
  apply subseteq_take, py_strip_elem, spec_collapse_elem in Hc.
  destruct Hc as [->|[Hc Hsp]]; [done|].
  split; [|done]. by apply spec_replace_elem in Hc.
Qed.

(** C4 (as amended).  For every title the code computes what the rule
    says: each of the nine hostile characters becomes an underscore, each
    whitespace run becomes one underscore, dots and underscores are
    trimmed at both ends and at most 100 characters are kept.  The result
    has no hostile and no whitespace character and does not begin with a
    dot or an underscore.  The ampersand is not a hostile character: the
    title [Advanced: I/O & Networking] is saved as
    [Advanced__I_O_&_Networking.md]. *)
Theorem sanitize_filename_rule (title : str) :
  _sanitize_filename title = spec_sanitize title
  ∧ (length (_sanitize_filename title) ≤ 100)%nat
  ∧ (∀ c, c ∈ _sanitize_filename title → hostile c = false ∧ is_space c = false)
  ∧ (∀ c rest, _sanitize_filename title = c :: rest → dot_or_underscore c = false)
  ∧ chapter_filename (py "Advanced: I/O & Networking")
    = py "Advanced__I_O_&_Networking.md".
Proof.
  split_and!.
  - apply sanitize_refines.
  - rewrite sanitize_refines. unfold spec_sanitize. rewrite length_take. lia.
  - intros c. rewrite sanitize_refines. apply spec_sanitize_elem.
  - intros c rest. rewrite sanitize_refines. unfold spec_sanitize.
    destruct (py_strip _ _) as [|a s] eqn:Hs; [done|].
    simpl. intros ?; simplify_eq. by apply py_strip_head in Hs.
  - vm_compute. reflexivity.
Qed.

(** C4, as stated, fails: the sample of the specification replaces the
    ampersand as well; the code does not. *)
Lemma sanitize_sample_keeps_ampersand :
  chapter_filename (py "Advanced: I/O & Networking")
  ≠ py "Advanced__I_O___Networking.md".
Proof. vm_compute. discriminate. Qed.

(** ** The title of an anchor *)

Lemma open_prefix_consuming : consuming (after_prefix OPEN_PREFIX).
Proof. by apply after_prefix_consuming. Qed.

(** Text that does not begin with the prefix is the title as it is. *)
Lemma clean_title_other text :
  startswith OPEN_PREFIX text = false → clean_title text = text.
Proof. unfold clean_title. by intros ->. Qed.

(** C5.  On the anchor text [Open How to Open Files] the title is
    [How to Files]: every occurrence of the prefix is removed, not only
    the leading one, so the title is not [How to Open Files]. *)
Theorem clean_title_removes_every_occurrence :
  startswith OPEN_PREFIX (py "Open How to Open Files") = true
  ∧ clean_title (py "Open How to Open Files") = py "How to Files"
  ∧ clean_title (py "Open How to Open Files") ≠ py "How to Open Files".
Proof. split_and!; [done| by vm_compute | vm_compute; discriminate]. Qed.

(** ** The ledger *)

(** C2.  One record-and-compare step overwrites the entry of the URL with
    the new record whatever was there, leaves every other entry alone,
    and reports a change exactly when the new digest differs from the one
    stored before; a URL without an entry counts as changed.  (A digest
    is 64 hexadecimal digits, never the empty string.) *)
Theorem record_and_compare_spec (metadata : ledger)
    (url title filename digest now : str) :
  digest ≠ [] →
  (record_and_compare metadata url title filename digest now).2 !! url
    = Some {| entry_title := title; entry_filename := filename;
              entry_hash := digest; entry_last_updated := now;
              entry_url := url |}
  ∧ (∀ other, other ≠ url →
       (record_and_compare metadata url title filename digest now).2 !! other
       = metadata !! other)
  ∧ ((record_and_compare metadata url title filename digest now).1 = true ↔
       match metadata !! url with
       | Some e => digest ≠ entry_hash e
       | None => True
       end).
Proof.
  intros Hne. unfold record_and_compare. simpl. split_and!.
  - by rewrite lookup_insert_eq.
  - intros other Ho. by rewrite lookup_insert_ne.
  - rewrite negb_true_iff, bool_decide_eq_false.
    by destruct (metadata !! url).
Qed.

Lemma record_and_compare_witness :
  py "9f86d0" ≠ []
  ∧ (record_and_compare ∅ (py "u") (py "T") (py "T.md") (py "9f86d0") (py "now")).1
    = true.
Proof.
  split; [done|].
  apply (record_and_compare_spec ∅ (py "u") (py "T") (py "T.md")
           (py "9f86d0") (py "now")); done.
Defined.

Section Pipeline.

Context `{Capabilities}.

(** ** One chapter *)

Lemma process_chapter_ok session m title url now content :
  chapter_content session url = Some content →
  _process_chapter session m title url now
  = (Ok (chapter_filename title, content,
         (record_and_compare m url title (chapter_filename title)
            (_calculate_hash content) now).1),
     (record_and_compare m url title (chapter_filename title)
        (_calculate_hash content) now).2).
Proof.
  unfold chapter_content, _process_chapter.
  destruct (_fetch_page session url); [|done].
  destruct (_extract_content a); [|done]. by intros [= ->].
Qed.

Lemma process_chapter_raise session m title url now :
  chapter_content session url = None →
  ∃ e, _process_chapter session m title url now
       = (Raise (py "Error processing chapter '" ++ title ++ py "': " ++ e), m).
Proof.
  unfold chapter_content, _process_chapter.
  destruct (_fetch_page session url); [|by eexists].
  destruct (_extract_content a); [done|by eexists].
Qed.

Lemma process_chapter_raise_inv session m title url now e :
  (_process_chapter session m title url now).1 = Raise e →
  chapter_content session url = None.
Proof.
  destruct (chapter_content session url) as [c|] eqn:E; [|done].
  by rewrite (process_chapter_ok _ _ _ _ _ _ E).
Qed.

(** The step of the completion loop, by the outcome of the chapter. *)
Lemma on_completed_raised links dry_run clock st i e :
  raised st = Some e → on_completed links dry_run clock st i = st.
Proof. intros Hr. unfold on_completed. by rewrite Hr. Qed.

Lemma on_completed_out_of_range links dry_run clock st i :
  links !! i = None → on_completed links dry_run clock st i = st.
Proof. intros Hi. unfold on_completed. rewrite Hi. by destruct (raised st). Qed.

Lemma on_completed_raise links dry_run clock st i title url :
  raised st = None →
  links !! i = Some (title, url) →
  chapter_content true url = None →
  ∃ e, on_completed links dry_run clock st i =
  {| metadata := metadata st;
     results_dict := results_dict st;
     changed_chapters := changed_chapters st;
     chapter_files := chapter_files st;
     printed := printed st
       ++ [Warning (py "Error processing chapter '" ++ title ++ py "': " ++ e)];
     raised := None |}.
Proof.
  intros Hr Hi Hc. unfold on_completed. rewrite Hr, Hi.
  destruct (process_chapter_raise true (metadata st) title url (clock i) Hc)
    as [e ->]. by exists e.
Qed.

(** A chapter that succeeds and whose file is written, or announced. *)
Lemma on_completed_ok links dry_run clock st i title url content :
  links !! i = Some (title, url) →
  chapter_content true url = Some content →
  raised (on_completed links dry_run clock st i) = None →
  on_completed links dry_run clock st i =
  let rc := record_and_compare (metadata st) url title (chapter_filename title)
              (_calculate_hash content) (clock i) in
  {| metadata := rc.2;
     results_dict :=
       match original_index links (chapter_filename title) with
       | Some i0 => <[i0 := (chapter_filename title, content)]> (results_dict st)
       | None => results_dict st
       end;
     changed_chapters :=
       if rc.1 then changed_chapters st ++ [chapter_filename title]
       else changed_chapters st;
     chapter_files :=
       if dry_run then chapter_files st
       else <[chapter_filename title := content]> (chapter_files st);
     printed :=
       if dry_run then printed st ++ [WouldSave (chapter_filename title)]
       else printed st;
     raised := None |}.
Proof.
  intros Hi Hc. unfold on_completed.
  destruct (raised st) as [e|] eqn:Hr; [congruence|].
  rewrite Hi, (process_chapter_ok _ _ _ _ _ _ Hc). cbv zeta.
  destruct dry_run; [done|].
  by destruct (open_error (chapter_filename title)).
Qed.

(** A chapter that succeeds and whose file does not open. *)
Lemma on_completed_open_fails links clock st i title url content e :
  raised st = None →
  links !! i = Some (title, url) →
  chapter_content true url = Some content →
  open_error (chapter_filename title) = Some e →
  on_completed links false clock st i =
  let rc := record_and_compare (metadata st) url title (chapter_filename title)
              (_calculate_hash content) (clock i) in
  {| metadata := rc.2;
     results_dict :=
       match original_index links (chapter_filename title) with
       | Some i0 => <[i0 := (chapter_filename title, content)]> (results_dict st)
       | None => results_dict st
       end;
     changed_chapters :=
       if rc.1 then changed_chapters st ++ [chapter_filename title]
       else changed_chapters st;
     chapter_files := chapter_files st;
     printed := printed st;
     raised := Some e |}.
Proof.
  intros Hr Hi Hc He. unfold on_completed.
  rewrite Hr, Hi, (process_chapter_ok _ _ _ _ _ _ Hc). cbv zeta.
  by rewrite He.
Qed.

(** The five ways a step can go: the loop is over already, the index is
    outside the list, the chapter fails, the chapter succeeds and is
    written or announced, the chapter succeeds and its file does not
    open. *)
Lemma on_completed_step links dry_run clock st j :
  (∃ e, raised st = Some e ∧ on_completed links dry_run clock st j = st)
  ∨ (links !! j = None ∧ on_completed links dry_run clock st j = st)
  ∨ (∃ t u e, raised st = None ∧ links !! j = Some (t, u)
              ∧ chapter_content true u = None
              ∧ on_completed links dry_run clock st j =
                {| metadata := metadata st;
                   results_dict := results_dict st;
                   changed_chapters := changed_chapters st;
                   chapter_files := chapter_files st;
                   printed := printed st ++ [Warning e];
                   raised := None |})
  ∨ (∃ t u c, raised st = None ∧ links !! j = Some (t, u)
              ∧ chapter_content true u = Some c
              ∧ (if dry_run then None else open_error (chapter_filename t))
                = None
              ∧ on_completed links dry_run clock st j =
                {| metadata :=
                     (record_and_compare (metadata st) u t (chapter_filename t)
                        (_calculate_hash c) (clock j)).2;
                   results_dict :=
                     match original_index links (chapter_filename t) with
                     | Some i0 =>
                         <[i0 := (chapter_filename t, c)]> (results_dict st)
                     | None => results_dict st
                     end;
                   changed_chapters :=
                     if (record_and_compare (metadata st) u t
                           (chapter_filename t) (_calculate_hash c) (clock j)).1
                     then changed_chapters st ++ [chapter_filename t]
                     else changed_chapters st;
                   chapter_files :=
                     if dry_run then chapter_files st
                     else <[chapter_filename t := c]> (chapter_files st);
                   printed :=
                     if dry_run
                     then printed st ++ [WouldSave (chapter_filename t)]
                     else printed st;
                   raised := None |})
  ∨ (∃ t u c e, raised st = None ∧ links !! j = Some (t, u)
                ∧ chapter_content true u = Some c
                ∧ dry_run = false
                ∧ open_error (chapter_filename t) = Some e
                ∧ on_completed links dry_run clock st j =
                  {| metadata :=
                       (record_and_compare (metadata st) u t
                          (chapter_filename t) (_calculate_hash c) (clock j)).2;
                     results_dict :=
                       match original_index links (chapter_filename t) with
                       | Some i0 =>
                           <[i0 := (chapter_filename t, c)]> (results_dict st)
                       | None => results_dict st
                       end;
                     changed_chapters :=
                       if (record_and_compare (metadata st) u t
                             (chapter_filename t) (_calculate_hash c)
                             (clock j)).1
                       then changed_chapters st ++ [chapter_filename t]
                       else changed_chapters st;
                     chapter_files := chapter_files st;
                     printed := printed st;
                     raised := Some e |}).
Proof.
  destruct (raised st) as [e0|] eqn:Hr.
  { left. exists e0. split; [done|]. by apply on_completed_raised with e0. }
  destruct (links !! j) as [[t u]|] eqn:Hj.
  2:{ right. left. split; [done|]. by apply on_completed_out_of_range. }
  destruct (chapter_content true u) as [c|] eqn:Hu.
  2:{ right. right. left.
      destruct (on_completed_raise links dry_run clock st j t u Hr Hj Hu)
        as [e ->]. by eexists t, u, _. }
  destruct dry_run.
  { right. right. right. left. exists t, u, c. split_and!; try done.
    apply on_completed_ok; [done|done|].
    unfold on_completed. by rewrite Hr, Hj, (process_chapter_ok _ _ _ _ _ _ Hu). }
  destruct (open_error (chapter_filename t)) as [e|] eqn:He.
  - right. right. right. right. exists t, u, c, e. split_and!; try done.
    by apply on_completed_open_fails.
  - right. right. right. left. exists t, u, c. split_and!; try done.
    apply on_completed_ok; [done|done|].
    unfold on_completed.
    rewrite Hr, Hj, (process_chapter_ok _ _ _ _ _ _ Hu). cbv zeta.
    by rewrite He.
Qed.

(** The three ways a step can go that leaves the loop running. *)
Lemma on_completed_cases links dry_run clock st j :
  raised (on_completed links dry_run clock st j) = None →
  (∃ t u c, links !! j = Some (t, u) ∧ chapter_content true u = Some c
            ∧ on_completed links dry_run clock st j =
              {| metadata :=
                   (record_and_compare (metadata st) u t (chapter_filename t)
                      (_calculate_hash c) (clock j)).2;
                 results_dict :=
                   match original_index links (chapter_filename t) with
                   | Some i0 => <[i0 := (chapter_filename t, c)]> (results_dict st)
                   | None => results_dict st
                   end;
                 changed_chapters :=
                   if (record_and_compare (metadata st) u t (chapter_filename t)
                         (_calculate_hash c) (clock j)).1
                   then changed_chapters st ++ [chapter_filename t]
                   else changed_chapters st;
                 chapter_files :=
                   if dry_run then chapter_files st
                   else <[chapter_filename t := c]> (chapter_files st);
                 printed :=
                   if dry_run
                   then printed st ++ [WouldSave (chapter_filename t)]
                   else printed st;
                 raised := None |})
  ∨ (∃ t u e, links !! j = Some (t, u) ∧ chapter_content true u = None
              ∧ on_completed links dry_run clock st j =
                {| metadata := metadata st;
                   results_dict := results_dict st;
                   changed_chapters := changed_chapters st;
                   chapter_files := chapter_files st;
                   printed := printed st ++ [Warning e];
                   raised := None |})
  ∨ (links !! j = None ∧ on_completed links dry_run clock st j = st).
Proof.
  intros Hfin.
  destruct (on_completed_step links dry_run clock st j)
    as [(e & Hr & Heq)|[[Hl Heq]|[(t & u & e & Hr & Hl & Hu & Heq)
       |[(t & u & c & Hr & Hl & Hu & Hopen & Heq)
        |(t & u & c & e & Hr & Hl & Hu & Hdry & Herr & Heq)]]]].
  - rewrite Heq in Hfin. congruence.
  - by right; right.
  - right. left. by exists t, u, e.
  - left. by exists t, u, c.
  - rewrite Heq in Hfin. discriminate Hfin.
Qed.

(** An exception that has left the loop stays, so a loop that ends
    without one has had none at any step. *)
Lemma process_all_raised links dry_run clock order st e :
  raised st = Some e → process_all links dry_run clock order st = st.
Proof.
  intros Hr. unfold process_all. induction order as [|j order IH]; [done|].
  simpl. by rewrite (on_completed_raised _ _ _ _ _ e).
Qed.

Lemma process_all_cons links dry_run clock j order st :
  process_all links dry_run clock (j :: order) st
  = process_all links dry_run clock order (on_completed links dry_run clock st j).
Proof. done. Qed.

Lemma process_all_finished_step links dry_run clock j order st :
  raised (process_all links dry_run clock (j :: order) st) = None →
  raised (on_completed links dry_run clock st j) = None.
Proof.
  rewrite process_all_cons.
  destruct (raised (on_completed links dry_run clock st j)) as [e|] eqn:Hr;
    [|done].
  by rewrite (process_all_raised _ _ _ _ _ e), Hr.
Qed.


Lemma process_all_finished_start links dry_run clock order st :
  raised (process_all links dry_run clock order st) = None → raised st = None.
Proof.
  destruct (raised st) as [e|] eqn:Hr; [|done].
  by rewrite (process_all_raised _ _ _ _ _ e), Hr.
Qed.

Ltac step_cases links dry_run clock st j :=
  destruct (on_completed_step links dry_run clock st j)
    as [(e & Hr & ->)|[[Hl ->]|[(t & u & e & Hr & Hl & Hu & ->)
       |[(t & u & c & Hr & Hl & Hu & Hopen & ->)
        |(t & u & c & e & Hr & Hl & Hu & Hdry & Herr & ->)]]]].

Ltac running_cases links dry_run clock st j Hfin :=
  destruct (on_completed_cases links dry_run clock st j Hfin)
    as [(t & u & c & Hl & Hu & ->)|[(t & u & e & Hl & Hu & ->)|[Hl ->]]].

(** A step writes the ledger only under the URL of a chapter that
    succeeded. *)
Lemma on_completed_ledger_other links dry_run clock st i url :
  chapter_content true url = None →
  metadata (on_completed links dry_run clock st i) !! url = metadata st !! url.
Proof.
  intros Hfail. step_cases links dry_run clock st i; simpl; try done.
  - apply lookup_insert_ne. congruence.
  - apply lookup_insert_ne. congruence.
Qed.

(** C10.  When the fetch or the extraction of a chapter raises, the
    attempt returns the ledger it was given, and the entry of that URL at
    the end of the loop is the entry from before the loop, whatever the
    other chapters did and in whatever order the tasks completed. *)
Theorem failed_chapter_keeps_ledger (m : ledger) (title url now e : str) :
  (_process_chapter true m title url now).1 = Raise e →
  (_process_chapter true m title url now).2 = m
  ∧ ∀ links dry_run clock order st,
      metadata (process_all links dry_run clock order st) !! url
      = metadata st !! url.
Proof.
  intros Hr. apply process_chapter_raise_inv in Hr. split.
  - by destruct (process_chapter_raise true m title url now Hr) as [e' ->].
  - intros links dry_run clock order. unfold process_all.
    induction order as [|i order IH]; intros st; [done|].
    simpl. rewrite IH. by apply on_completed_ledger_other.
Qed.

(** ** The order of the results *)

Lemma StronglySorted_le_seq j n : StronglySorted Nat.le (seq j n).
Proof.
  revert j. induction n as [|n IH]; intros j; simpl; constructor; [done|].
  apply Forall_seq. intros; lia.
Qed.

Lemma StronglySorted_filter {A} (R : relation A) (P : A → Prop)
    `{∀ x, Decision (P x)} (l : list A) :
  StronglySorted R l → StronglySorted R (filter P l).
Proof.
  induction 1 as [|x l Hl IH Hx]; [constructor|].
  rewrite filter_cons. destruct (decide (P x)); [|done].
  constructor; [done|].
  apply Forall_forall. intros y [_ Hy]%list_elem_of_filter.
  by eapply Forall_forall in Hx.
Qed.

Lemma omap_filter_is_Some {A B} (g : A → option B) (l : list A) :
  omap g (filter (λ x, is_Some (g x)) l) = omap g l.
Proof.
  induction l as [|x l IH]; [done|]. rewrite filter_cons.
  destruct (decide (is_Some (g x))) as [[y Hy]|Hn]; cbn [omap list_omap].
  - by rewrite Hy, IH.
  - rewrite IH. destruct (g x) eqn:E; [|done]. by destruct Hn.
Qed.

Lemma omap_lookup_seq {A B} (f : A → option B) (l : list A) :
  omap (λ j, l !! j ≫= f) (seq 0 (length l)) = omap f l.
Proof.
  induction l as [|x l IH] using rev_ind; [done|].
  rewrite length_app, Nat.add_1_r, seq_S, !omap_app. simpl. f_equal.
  - rewrite <-IH. apply list_omap_ext, Forall2_same_length_lookup_2; [done|].
    intros i a b Ha Hb. rewrite Ha in Hb. injection Hb as <-.
    apply lookup_seq in Ha as [-> Hlt]. by rewrite lookup_app_l.
  - rewrite lookup_app_r, Nat.sub_diag by done. simpl. by destruct (f x).
Qed.

(** Reading a dictionary that holds [f] of the [j]-th element under every
    index [j] by ascending key gives the elements in list order. *)
Lemma ordered_results_tabulate {A} (d : gmap nat (str * str))
    (l : list A) (f : A → option (str * str)) :
  (∀ j, d !! j = l !! j ≫= f) → ordered_results d = omap f l.
Proof.
  intros Hd. unfold ordered_results.
  assert (sorted_keys d = filter (λ j, is_Some (d !! j)) (seq 0 (length l)))
    as ->.
  { apply (StronglySorted_unique Nat.le).
    - apply StronglySorted_merge_sort; apply _.
    - apply StronglySorted_filter, StronglySorted_le_seq.
    - unfold sorted_keys. rewrite merge_sort_Permutation.
      apply NoDup_Permutation.
      + apply NoDup_fst_map_to_list.
      + apply NoDup_filter, NoDup_seq.
      + intros j. rewrite list_elem_of_filter, elem_of_seq, list_elem_of_fmap.
        split.
        * intros ([j' x] & -> & Hx%elem_of_map_to_list). simpl.
          split; [by eexists|]. rewrite Hd in Hx.
          destruct (l !! j') eqn:E; [|done].
          apply lookup_lt_Some in E. lia.
        * intros [[x Hx] _]. exists (j, x). split; [done|].
          by apply elem_of_map_to_list. }
  rewrite omap_filter_is_Some, <-(omap_lookup_seq f l).
  apply list_omap_ext, Forall2_same_length_lookup_2; [done|].
  intros i a b Ha Hb. rewrite Ha in Hb. injection Hb as <-. apply Hd.
Qed.

Lemma chapter_filename_inj t1 t2 :
  chapter_filename t1 = chapter_filename t2 →
  _sanitize_filename t1 = _sanitize_filename t2.
Proof. unfold chapter_filename. by intros ?%(inj (.++ _)). Qed.

Lemma original_index_distinct links i title url :
  NoDup (_sanitize_filename <$> links.*1) →
  links !! i = Some (title, url) →
  original_index links (chapter_filename title) = Some i.
Proof.
  intros Hnd Hi. unfold original_index.
  assert (list_find (λ link, _sanitize_filename link.1 ++ py ".md"
                             = chapter_filename title) links
          = Some (i, (title, url))) as ->; [|done].
  apply list_find_Some. split_and!; [done|done|].
  intros j [t u] Hj Hlt Heq. simpl in Heq. apply chapter_filename_inj in Heq.
  assert (j = i); [|lia].
  eapply (NoDup_lookup _ _ _ _ Hnd); rewrite !list_lookup_fmap.
  - by rewrite Hj.
  - rewrite Hi. simpl. by rewrite Heq.
Qed.

Lemma on_completed_results links dry_run clock st i j :
  NoDup (_sanitize_filename <$> links.*1) →
  raised (on_completed links dry_run clock st i) = None →
  results_dict (on_completed links dry_run clock st i) !! j
  = if decide (j = i)
    then from_option Some (results_dict st !! j) (links !! j ≫= chapter_result)
    else results_dict st !! j.
Proof.
  intros Hnd Hfin. running_cases links dry_run clock st i Hfin; simpl.
  - rewrite (original_index_distinct _ _ _ _ Hnd Hl).
    destruct (decide (j = i)) as [->|Hne].
    + rewrite lookup_insert_eq, Hl. simpl. unfold chapter_result. simpl.
      by rewrite Hu.
    + by rewrite lookup_insert_ne.
  - destruct (decide (j = i)) as [->|Hne]; [|done].
    rewrite Hl. simpl. unfold chapter_result. simpl. by rewrite Hu.
  - destruct (decide (j = i)) as [->|Hne]; [|done]. by rewrite Hl.
Qed.

Lemma process_all_results links dry_run clock order :
  NoDup (_sanitize_filename <$> links.*1) →
  ∀ st j,
    raised (process_all links dry_run clock order st) = None →
    results_dict (process_all links dry_run clock order st) !! j
    = if decide (j ∈ order)
      then from_option Some (results_dict st !! j) (links !! j ≫= chapter_result)
      else results_dict st !! j.
Proof.
  intros Hnd.
  induction order as [|i order IH]; intros st j Hfin.
  - destruct (decide (j ∈ [])) as [Hin|_]; [|done]. by apply elem_of_nil in Hin.
  - pose proof (process_all_finished_step _ _ _ _ _ _ Hfin) as Hstep.
    rewrite process_all_cons in *.
    rewrite IH, on_completed_results by done.
    destruct (decide (j = i)) as [->|Hne].
    + rewrite (decide_True (P := i ∈ i :: order)) by apply list_elem_of_here.
      destruct (decide (i ∈ order)); [|done].
      by destruct (links !! i ≫= chapter_result).
    + destruct (decide (j ∈ order)) as [Hin|Hout].
      * rewrite decide_True; [done|]. by apply list_elem_of_further.
      * rewrite decide_False; [done|].
        rewrite elem_of_cons. intros [?|?]; done.
Qed.

(** C1.  When the sanitised filenames of the discovered chapters are
    pairwise distinct, then at the end of a loop that no exception has
    left every chapter that succeeds is filed under its own position in
    the discovery list, and the ordered results are the successful
    chapters in discovery order, in whatever order the tasks complete. *)
Theorem ordered_results_in_discovery_order
    (chapter_links : list (str * str)) (dry_run : bool) (clock : nat → str)
    (order : list nat) (m : ledger) (files : gmap str str) :
  NoDup (_sanitize_filename <$> chapter_links.*1) →
  order ≡ₚ seq 0 (length chapter_links) →
  let st := process_all chapter_links dry_run clock order (start m files) in
  raised st = None →
  (∀ i, results_dict st !! i = chapter_links !! i ≫= chapter_result)
  ∧ ordered_results (results_dict st) = omap chapter_result chapter_links.
Proof.
  intros Hnd Hperm st Hfin.
  assert (∀ i, results_dict st !! i = chapter_links !! i ≫= chapter_result)
    as Hd.
  { intros i. unfold st. rewrite process_all_results by done.
    simpl. rewrite lookup_empty.
    destruct (decide (i ∈ order)) as [Hin|Hout].
    - by destruct (chapter_links !! i ≫= chapter_result).
    - rewrite Hperm, elem_of_seq in Hout.
      rewrite (lookup_ge_None_2 chapter_links i); [done|lia]. }
  split; [done|]. by apply ordered_results_tabulate.
Qed.

(** ** Facts that survive the loop *)

(** What the task of chapter [i] establishes and no later step destroys
    holds at the end, once [i] is among the completed tasks. *)
Lemma process_all_established (P : loop_state → Prop) links dry_run clock
    (order : list nat) (i : nat) :
  i ∈ order →
  (∀ st, P (on_completed links dry_run clock st i)) →
  (∀ st j, P st → P (on_completed links dry_run clock st j)) →
  ∀ st, P (process_all links dry_run clock order st).
Proof.
  intros Hin Hi Hkeep. unfold process_all.
  assert (∀ l st, P st → P (foldl (on_completed links dry_run clock) st l))
    as Hfold.
  { induction l as [|j l IH]; intros st Hst; [done|]. simpl. by apply IH, Hkeep. }
  induction order as [|j order IH]; intros st; [by apply elem_of_nil in Hin|].
  simpl. apply elem_of_cons in Hin as [->|Hin].
  - apply Hfold, Hi.
  - by apply IH.
Qed.

Lemma process_all_preserved (P : loop_state → Prop) links dry_run clock
    (order : list nat) :
  (∀ st j, P st → P (on_completed links dry_run clock st j)) →
  ∀ st, P st → P (process_all links dry_run clock order st).
Proof.
  intros Hkeep. unfold process_all.
  induction order as [|j order IH]; intros st Hst; [done|].
  simpl. by apply IH, Hkeep.
Qed.


Lemma process_all_finished_preserved (P : loop_state → Prop)
    links dry_run clock (order : list nat) :
  (∀ st j, raised (on_completed links dry_run clock st j) = None →
           P st → P (on_completed links dry_run clock st j)) →
  ∀ st, raised (process_all links dry_run clock order st) = None →
        P st → P (process_all links dry_run clock order st).
Proof.
  intros Hkeep.
  induction order as [|j order IH]; intros st Hfin Hst; [done|].
  pose proof (process_all_finished_step _ _ _ _ _ _ Hfin) as Hstep.
  rewrite process_all_cons in *. by apply IH, Hkeep.
Qed.

(** ** Two runs over the same pages *)









(** ** Failures stay with their chapter *)

Lemma original_index_Some links filename i0 :
  original_index links filename = Some i0 →
  ∃ title url, links !! i0 = Some (title, url)
               ∧ chapter_filename title = filename.
Proof.
  unfold original_index. intros Hfind.
  destruct (list_find _ links) as [[i [t u]]|] eqn:E; [|done].
  simpl in Hfind. injection Hfind as ->.
  apply list_find_Some in E as (Hi & Hf & _). by exists t, u.
Qed.

Lemma original_index_is_Some links i title url :
  links !! i = Some (title, url) →
  is_Some (original_index links (chapter_filename title)).
Proof.
  intros Hi. unfold original_index. apply fmap_is_Some.
  eapply (list_find_elem_of _ _ (title, url)); [|done].
  by eapply list_elem_of_lookup_2.
Qed.









End Pipeline.

Ltac step_cases links dry_run clock st j :=
  destruct (on_completed_step links dry_run clock st j)
    as [(e & Hr & ->)|[[Hl ->]|[(t & u & e & Hr & Hl & Hu & ->)
       |[(t & u & c & Hr & Hl & Hu & Hopen & ->)
        |(t & u & c & e & Hr & Hl & Hu & Hdry & Herr & ->)]]]].

Ltac running_cases links dry_run clock st j Hfin :=
  destruct (on_completed_cases links dry_run clock st j Hfin)
    as [(t & u & c & Hl & Hu & ->)|[(t & u & e & Hl & Hu & ->)|[Hl ->]]].

(** ** The admission gate *)

Section GateFacts.

Import Gate.

Lemma count_insert (s a b : stage) (l : list stage) (i : nat) :
  l !! i = Some a →
  (length (filter (λ t, t = s) (<[i := b]> l)) + (if decide (a = s) then 1 else 0)
   = length (filter (λ t, t = s) l) + (if decide (b = s) then 1 else 0))%nat.
Proof.
  revert i. induction l as [|x l IH]; intros [|i] Hi; simplify_eq/=.
  - rewrite !filter_cons.
    destruct (decide (a = s)), (decide (b = s)); simpl; lia.
  - rewrite !filter_cons. specialize (IH i Hi).
    destruct (decide (x = s)); simpl; lia.
Qed.

Lemma count_replicate_same (s : stage) n :
  length (filter (λ t, t = s) (replicate n s)) = n.
Proof.
  induction n as [|n IH]; [done|]. simpl. rewrite filter_cons.
  rewrite decide_True by done. simpl. by rewrite IH.
Qed.

Lemma count_replicate_other (s s' : stage) n :
  s' ≠ s → length (filter (λ t, t = s) (replicate n s')) = 0%nat.
Proof.
  intros Hne. induction n as [|n IH]; [done|]. simpl. rewrite filter_cons.
  by rewrite decide_False.
Qed.

Lemma fire_invariant st ev st' :
  fire st ev = Some st' →
  balance st' = balance st
  ∧ length (tasks st') = length (tasks st)
  ∧ S (work_left st') = work_left st.
Proof.
  unfold balance, work_left, fetching, count.
  destruct ev as [i|i|i]; simpl.
  - destruct (tasks st !! i) as [[]|] eqn:Hi; try done.
    destruct (permits st) as [|k] eqn:Hp; [done|]. intros [= <-]. simpl.
    pose proof (count_insert Fetching Queued Fetching _ _ Hi) as HF.
    pose proof (count_insert Queued Queued Fetching _ _ Hi) as HQ.
    rewrite length_insert. simpl in *. lia.
  - destruct (tasks st !! i) as [[]|] eqn:Hi; try done. intros [= <-]. simpl.
    pose proof (count_insert Fetching Fetching Completed _ _ Hi) as HF.
    pose proof (count_insert Queued Fetching Completed _ _ Hi) as HQ.
    rewrite length_insert. simpl in *. lia.
  - destruct (tasks st !! i) as [[]|] eqn:Hi; try done. intros [= <-]. simpl.
    pose proof (count_insert Fetching Fetching Failed _ _ Hi) as HF.
    pose proof (count_insert Queued Fetching Failed _ _ Hi) as HQ.
    rewrite length_insert. simpl in *. lia.
Qed.

Lemma exec_invariant trace : ∀ st st',
  exec st trace = Some st' →
  balance st' = balance st
  ∧ length (tasks st') = length (tasks st)
  ∧ (work_left st' + length trace = work_left st)%nat.
Proof.
  induction trace as [|ev trace IH]; intros st st' Hex; simpl in Hex.
  - injection Hex as <-. simpl. lia.
  - destruct (fire st ev) as [st1|] eqn:Hf; [|done].
    apply fire_invariant in Hf as (Hb & Hl & Hw).
    apply IH in Hex as (Hb' & Hl' & Hw'). simpl. lia.
Qed.

Lemma init_measures limit n :
  balance (init limit n) = limit
  ∧ length (tasks (init limit n)) = n
  ∧ work_left (init limit n) = (2 * n)%nat.
Proof.
  unfold balance, work_left, fetching, count. simpl.
  rewrite count_replicate_same, count_replicate_other, length_replicate by done.
  lia.
Qed.

(** With a permit in the gate or a fetch in flight, a state with an
    unfinished task can move on. *)
Lemma progress st :
  (0 < balance st)%nat →
  Forall finished (tasks st) ∨ ∃ ev st', fire st ev = Some st'.
Proof.
  intros Hpos.
  destruct (decide (Fetching ∈ tasks st)) as [Hf|Hnf].
  { right. apply list_elem_of_lookup in Hf as [i Hi].
    exists (Return i). simpl. rewrite Hi. by eexists. }
  destruct (decide (Queued ∈ tasks st)) as [Hq|Hnq].
  { right. apply list_elem_of_lookup in Hq as [i Hi].
    exists (Acquire i). simpl. rewrite Hi.
    destruct (permits st) as [|k] eqn:Hp; [|by eexists].
    exfalso. apply Hnf. unfold balance, fetching, count in Hpos.
    rewrite Hp in Hpos. simpl in Hpos.
    destruct (filter (λ t, t = Fetching) (tasks st)) as [|t l] eqn:E;
      [simpl in Hpos; lia|].
    assert (t ∈ filter (λ t, t = Fetching) (tasks st)) as Ht
      by (rewrite E; apply list_elem_of_here).
    apply list_elem_of_filter in Ht as [-> Ht]. done. }
  left. apply Forall_forall. intros t Ht. unfold finished.
  destruct t; [done|done|by left|by right].
Qed.



End GateFacts.

(** ** Link discovery *)

Section Discovery.

Context `{Capabilities}.

Lemma add_link_candidate config acc link :
  add_link config acc link =
  match candidate config link with
  | Some (t, u) => if bool_decide (u ∉ acc.*2) then acc ++ [(t, u)] else acc
  | None => acc
  end.
Proof.
  unfold add_link, candidate. destruct (href link) as [h|]; [|done].
  destruct (nonempty h), (nonempty (text link)); simpl; try done.
  destruct (contains NAMESPACE_MARKER (resolve_href config h)),
    (bool_decide (clean_title (text link) ∉ [ []; py "Open" ]));
    cbn [andb];
    destruct (bool_decide (resolve_href config h ∉ acc.*2)); reflexivity.
Qed.

Lemma candidate_marker config link t u :
  candidate config link = Some (t, u) →
  contains NAMESPACE_MARKER u = true ∧ t ≠ [] ∧ t ≠ py "Open"
  ∧ ∃ h, href link = Some h ∧ u = resolve_href config h.
Proof.
  unfold candidate. destruct (href link) as [h|]; [|done].
  destruct (nonempty h && nonempty (text link)); [|done]. cbn [andb].
  destruct (contains NAMESPACE_MARKER (resolve_href config h)) eqn:Hm; [|done].
  cbn [andb]. case_bool_decide as Ht; [|done]. intros [= <- <-].
  split_and!; [done| | |by exists h]; intros Heq; apply Ht; rewrite Heq.
  - apply list_elem_of_here.
  - apply list_elem_of_further, list_elem_of_here.
Qed.

Lemma foldl_add_link_discovered config anchors :
  discovered (omap (candidate config) anchors)
    (foldl (add_link config) [] anchors).
Proof.
  induction anchors as [|a anchors IH] using rev_ind.
  { split; simpl; [constructor|done|set_solver|set_solver]. }
  rewrite foldl_snoc, add_link_candidate, omap_app.
  set (acc := foldl (add_link config) [] anchors) in *.
  set (cands := omap (candidate config) anchors) in *.
  destruct IH as [Hnd Hsub Hcov Hfirst].
  cbn [omap list_omap]. destruct (candidate config a) as [[t u]|] eqn:Hc.
  - case_bool_decide as Hu.
    + split.
      * rewrite fmap_app. apply NoDup_app. split_and!; [done| |].
        -- intros x Hx ->%list_elem_of_singleton. done.
        -- apply NoDup_singleton.
      * by apply sublist_app.
      * intros t' u' [Hin|Hin%list_elem_of_singleton]%elem_of_app;
          rewrite fmap_app, elem_of_app.
        -- left. by eapply Hcov.
        -- right. injection Hin as -> ->. set_solver.
      * intros t' u' [Hin|Hin%list_elem_of_singleton]%elem_of_app.
        -- destruct (Hfirst t' u' Hin) as (i & Hi & Hbefore).
           exists i. split; [by apply lookup_app_l_Some|].
           intros j t'' Hj. rewrite lookup_app_l.
           ++ by apply Hbefore.
           ++ apply lookup_lt_Some in Hi. lia.
        -- injection Hin as -> ->. exists (length cands). split.
           ++ by rewrite list_lookup_middle.
           ++ intros j t'' Hj. rewrite lookup_app_l by done.
              intros Hl. apply Hu. eapply Hcov. by eapply list_elem_of_lookup_2.
    + split.
      * done.
      * by apply sublist_inserts_r.
      * intros t' u' [Hin|Hin%list_elem_of_singleton]%elem_of_app.
        -- by eapply Hcov.
        -- by injection Hin as -> ->.
      * intros t' u' Hin. destruct (Hfirst t' u' Hin) as (i & Hi & Hbefore).
        exists i. split; [by apply lookup_app_l_Some|].
        intros j t'' Hj. rewrite lookup_app_l.
        -- by apply Hbefore.
        -- apply lookup_lt_Some in Hi. lia.
  - rewrite app_nil_r. by split.
Qed.

Lemma resolve_href_absolute (absolute : str → Prop) config h :
  (∀ r, absolute (urljoin (base_url config) r)) →
  (∀ r, absolute (urljoin (base_url config ++ query_param config) r)) →
  (startswith (py "http") h = true → absolute h) →
  absolute (resolve_href config h).
Proof.
  intros Hroot Hrel Hhttp. unfold resolve_href.
  destruct (startswith (py "/") h); [done|].
  destruct (startswith (py "http") h); [by apply Hhttp|done].
Qed.

(** C6 (as amended).  When the root page has at least one qualifying
    anchor, discovery returns a non-empty list of entries whose URLs are
    pairwise distinct and hold the marker [/the-omarchy-manual/] somewhere
    (a containment test, not a test on the path), whose titles are neither
    empty nor [Open], in document order, with one entry per URL of a
    qualifying anchor: the first qualifying anchor with that URL.  The
    URLs are absolute provided that resolution against the configured
    base gives absolute URLs and that every [href] beginning with [http],
    which is passed through unchanged, is itself absolute. *)
Theorem discovery_properties (config : Config) (content : str)
    (absolute : str → Prop) :
  (∃ a, a ∈ select_toc_links content ∧ is_Some (candidate config a)) →
  (∀ r, absolute (urljoin (base_url config) r)) →
  (∀ r, absolute (urljoin (base_url config ++ query_param config) r)) →
  (∀ a h, a ∈ select_toc_links content → href a = Some h →
          startswith (py "http") h = true → absolute h) →
  ∃ links,
    links_of_page config content = Ok links
    ∧ links ≠ []
    ∧ NoDup links.*2
    ∧ (∀ t u, (t, u) ∈ links →
         absolute u ∧ contains NAMESPACE_MARKER u = true
         ∧ t ≠ [] ∧ t ≠ py "Open")
    ∧ links `sublist_of` omap (candidate config) (select_toc_links content)
    ∧ (∀ t u, (t, u) ∈ omap (candidate config) (select_toc_links content) →
         u ∈ links.*2)
    ∧ (∀ t u, (t, u) ∈ links →
         ∃ i, omap (candidate config) (select_toc_links content) !! i
              = Some (t, u)
              ∧ ∀ j t', (j < i)%nat →
                  omap (candidate config) (select_toc_links content) !! j
                  ≠ Some (t', u)).
Proof.
  intros (a & Ha & [[t0 u0] Hq]) Hroot Hrel Hhttp.
  destruct (foldl_add_link_discovered config (select_toc_links content))
    as [Hnd Hsub Hcov Hfirst].
  set (links := foldl (add_link config) [] (select_toc_links content)) in *.
  assert (links ≠ []) as Hne.
  { intros Hnil. specialize (Hcov t0 u0). rewrite Hnil in Hcov.
    apply elem_of_nil in Hcov; [done|].
    apply list_elem_of_omap. by exists a. }
  exists links. split_and!; try done.
  - unfold links_of_page. fold links. by destruct links.
  - intros t u Hin.
    assert ((t, u) ∈ omap (candidate config) (select_toc_links content))
      as Hc by by eapply elem_of_sublist.
    apply list_elem_of_omap in Hc as (b & Hb & Hcand).
    apply candidate_marker in Hcand as (Hm & Ht1 & Ht2 & h & Hh & ->).
    split_and!; try done. apply resolve_href_absolute; eauto.
Qed.

End Discovery.

(** ** Markdown clean-up *)

(** A whitespace pattern does not look past a character that is not
    whitespace. *)
Lemma star_greedy_stops p (k : matcher) d w :
  (∀ c, p c = true → is_space c = true) →
  is_space d = false →
  (∀ x, k (x ++ d :: w) = (.++ d :: w) <$> k x) →
  ∀ x, star_greedy p k (x ++ d :: w) = (.++ d :: w) <$> star_greedy p k x.
Proof.
  intros Hp Hd Hk x. induction x as [|c x IH]; simpl.
  - destruct (p d) eqn:E; [|apply (Hk [])].
    apply Hp in E. congruence.
  - destruct (p c); [|apply (Hk (c :: x))].
    rewrite IH. destruct (star_greedy p k x); [done|].
    apply (Hk (c :: x)).
Qed.

Lemma match_here_stops pat d w :
  spacey pat → is_space d = false →
  ∀ x, match_here pat (x ++ d :: w) = (.++ d :: w) <$> match_here pat x.
Proof.
  intros Hpat Hd. induction Hpat as [|a pat Ha Hpat IH]; intros x; [done|].
  destruct a as [p|p|p]; simpl in *.
  - destruct x as [|c x]; simpl.
    + destruct (p d) eqn:E; [|done]. apply Ha in E. congruence.
    + destruct (p c); [apply IH|done].
  - by apply star_greedy_stops.
  - destruct x as [|c x]; simpl.
    + destruct (p d) eqn:E; [|done]. apply Ha in E. congruence.
    + destruct (p c); [|done]. by apply star_greedy_stops.
Qed.

Lemma match_here_nil pat :
  (0 < min_length pat)%nat → match_here pat [] = None.
Proof.
  intros Hpos. destruct (match_here pat []) as [r|] eqn:E; [|done].
  apply match_here_length in E. simpl in E. lia.
Qed.

Lemma match_here_solid pat d w :
  spacey pat → (0 < min_length pat)%nat → is_space d = false →
  match_here pat (d :: w) = None.
Proof.
  intros Hpat Hpos Hd.
  pose proof (match_here_stops pat d w Hpat Hd []) as Hm.
  rewrite match_here_nil in Hm by done. exact Hm.
Qed.

Lemma re_sub_solid pat repl d w :
  spacey pat → (0 < min_length pat)%nat → is_space d = false →
  re_sub pat repl (d :: w) = d :: re_sub pat repl w.
Proof.
  intros. unfold re_sub. apply sub_scan_skip. by apply match_here_solid.
Qed.

(** The substitution works on the text before a character that is not
    whitespace as it does when that text stands alone. *)
Lemma re_sub_app_solid pat repl x d w :
  spacey pat → (0 < min_length pat)%nat → is_space d = false →
  re_sub pat repl (x ++ d :: w) = re_sub pat repl x ++ re_sub pat repl (d :: w).
Proof.
  intros Hpat Hpos Hd. unfold re_sub.
  remember (length x) as n eqn:Hn. revert x Hn.
  induction (lt_wf n) as [n _ IH]. intros x ->.
  destruct x as [|c x]; [done|].
  pose proof (match_here_stops pat d w Hpat Hd (c :: x)) as Hm.
  destruct (match_here pat (c :: x)) as [r|] eqn:E; simpl in Hm.
  - rewrite (sub_scan_match _ _ _ _ r) by (by try apply match_here_consuming).
    change ((c :: x) ++ d :: w) with (c :: (x ++ d :: w)).
    rewrite (sub_scan_match _ _ _ _ (r ++ d :: w))
      by (by try apply match_here_consuming).
    rewrite <-app_assoc. f_equal. eapply IH; [|done].
    apply match_here_length in E. lia.
  - rewrite (sub_scan_skip _ _ c x) by done.
    change ((c :: x) ++ d :: w) with (c :: (x ++ d :: w)).
    rewrite sub_scan_skip by done. simpl. f_equal.
    eapply IH; [|done]. simpl. lia.
Qed.

Lemma star_greedy_suffix p (k : matcher) :
  (∀ s r, k s = Some r → r `suffix_of` s) →
  ∀ s r, star_greedy p k s = Some r → r `suffix_of` s.
Proof.
  intros Hk s. induction s as [|c s IH]; intros r Hr; simpl in Hr.
  - by apply Hk.
  - destruct (p c); [|by apply Hk].
    destruct (star_greedy p k s) as [r'|] eqn:E; [|by apply Hk].
    simplify_eq. by apply suffix_cons_r, IH.
Qed.

Lemma match_here_suffix pat :
  ∀ s r, match_here pat s = Some r → r `suffix_of` s.
Proof.
  induction pat as [|[p|p|p] pat IH]; intros s r Hr; simpl in *.
  - by simplify_eq.
  - destruct s as [|c s]; [done|]. destruct (p c); [|done].
    by apply suffix_cons_r, IH.
  - by apply (star_greedy_suffix p _ IH).
  - destruct s as [|c s]; [done|]. destruct (p c); [|done].
    by apply suffix_cons_r, (star_greedy_suffix p _ IH).
Qed.

(** What the substitution emits is whitespace where its input and its
    replacement are. *)
Lemma re_sub_all_space pat repl x :
  (0 < min_length pat)%nat →
  Forall (λ c, is_space c = true) repl →
  Forall (λ c, is_space c = true) x →
  Forall (λ c, is_space c = true) (re_sub pat repl x).
Proof.
  intros Hpos Hrepl. unfold re_sub.
  remember (length x) as n eqn:Hn. revert x Hn.
  induction (lt_wf n) as [n _ IH]. intros x -> Hx.
  destruct x as [|c x]; [done|].
  destruct (match_here pat (c :: x)) as [r|] eqn:E.
  - rewrite (sub_scan_match _ _ _ _ r) by (by try apply match_here_consuming).
    apply Forall_app. split; [done|].
    pose proof (match_here_length _ _ _ E) as Hlen.
    apply match_here_suffix in E as [k Hk].
    eapply IH; [|done|]; [lia|].
    rewrite Hk in Hx. by apply Forall_app in Hx as [_ ?].
  - rewrite sub_scan_skip by done. apply Forall_cons in Hx as [Hc Hx].
    constructor; [done|]. eapply IH; [|done|done]. simpl. lia.
Qed.

Lemma RE_BLANKS_spacey : spacey RE_BLANKS.
Proof.
  assert (∀ c, is_newline c = true → is_space c = true) as Hnl.
  { intros c Hc%N.eqb_eq. by subst. }
  unfold spacey, RE_BLANKS. repeat constructor; done.
Qed.

Lemma RE_BLANKS_min : (0 < min_length RE_BLANKS)%nat.
Proof. simpl. lia. Qed.

Lemma star_greedy_horizontal pat h :
  horizontal h →
  star_greedy is_space (match_here (One is_newline :: pat)) h = None.
Proof.
  induction 1 as [|c h [Hc Hn] Hh IH]; [done|].
  cbn [star_greedy]. rewrite Hc, IH. cbn [match_here]. by rewrite Hn.
Qed.

Lemma newline_then_rest (t h : str) :
  all_space t → horizontal h →
  star_greedy is_space (match_here [One is_newline]) (t ++ NL :: h) = Some h.
Proof.
  intros Ht Hh. induction Ht as [|c t Hc Ht IH].
  - cbn [app star_greedy]. change (is_space NL) with true. cbn iota.
    by rewrite star_greedy_horizontal.
  - cbn [app star_greedy]. by rewrite Hc, IH.
Qed.

Lemma two_newlines_then_rest (x h : str) :
  all_space x → horizontal h →
  star_greedy is_space
    (match_here [One is_newline; Star is_space; One is_newline]) (x ++ NL :: h)
  = if bool_decide (NL ∈ x) then Some h else None.
Proof.
  intros Hx Hh. induction Hx as [|c x Hc Hx IH].
  { rewrite bool_decide_false by apply not_elem_of_nil.
    cbn [app star_greedy]. change (is_space NL) with true. cbn iota.
    rewrite star_greedy_horizontal by done.
    cbn [match_here]. change (is_newline NL) with true. cbn iota.
    exact (star_greedy_horizontal [] h Hh). }
  cbn [app star_greedy]. rewrite Hc, IH.
  case_bool_decide as Hin.
  - rewrite bool_decide_true; [done|]. by apply list_elem_of_further.
  - cbn [match_here]. destruct (is_newline c) eqn:E.
    + apply N.eqb_eq in E.
      rewrite bool_decide_true by (rewrite E; apply list_elem_of_here).
      by apply newline_then_rest.
    + rewrite bool_decide_false; [done|].
      intros [Heq|?]%elem_of_cons; [|done]. by rewrite <-Heq in E.
Qed.

Lemma collapse_not_newline c s :
  is_newline c = false → collapse_blanks (c :: s) = c :: collapse_blanks s.
Proof.
  intros Hc. unfold collapse_blanks, re_sub. apply sub_scan_skip.
  simpl. by rewrite Hc.
Qed.

Lemma collapse_horizontal h s :
  horizontal h → collapse_blanks (h ++ s) = h ++ collapse_blanks s.
Proof.
  induction 1 as [|c h [Hc Hn] Hh IH]; [done|].
  simpl. by rewrite collapse_not_newline, IH.
Qed.

(** Blank lines followed by whitespace on the next line collapse to one
    empty line; the whitespace stays. *)
Lemma collapse_blank_lines blank h :
  blank_lines blank → horizontal h →
  collapse_blanks (blank ++ h) = [NL; NL] ++ h.
Proof.
  intros Hb Hh.
  assert (collapse_blanks h = h) as Hh'.
  { rewrite <-(app_nil_r h) at 1. rewrite collapse_horizontal by done.
    apply app_nil_r. }
  destruct Hb as [|m Hm Hin]; unfold collapse_blanks, re_sub in *.
  - cbn [app]. rewrite sub_scan_skip.
    2:{ pose proof (two_newlines_then_rest [] h (Forall_nil_2 _) Hh) as Hnone.
        rewrite bool_decide_false in Hnone by apply not_elem_of_nil.
        exact Hnone. }
    rewrite sub_scan_skip.
    2:{ exact (star_greedy_horizontal [Star is_space; One is_newline] h Hh). }
    by rewrite Hh'.
  - cbn [app]. rewrite <-app_assoc. cbn [app].
    rewrite (sub_scan_match _ _ _ _ h).
    + by rewrite Hh'.
    + apply match_here_consuming, RE_BLANKS_min.
    + pose proof (two_newlines_then_rest m h Hm Hh) as Hsome.
      rewrite bool_decide_true in Hsome by done. exact Hsome.
Qed.

Lemma collapse_app_starts_solid x y :
  starts_solid y = true →
  collapse_blanks (x ++ y) = collapse_blanks x ++ collapse_blanks y.
Proof.
  destruct y as [|d w]; [done|]. simpl. intros Hd%negb_true_iff.
  apply re_sub_app_solid; [apply RE_BLANKS_spacey|apply RE_BLANKS_min|done].
Qed.

Lemma collapse_solid d w :
  is_space d = false → collapse_blanks (d :: w) = d :: collapse_blanks w.
Proof.
  intros. apply re_sub_solid; [apply RE_BLANKS_spacey|apply RE_BLANKS_min|done].
Qed.

Lemma ends_solid_snoc s :
  ends_solid s = true → ∃ x d, s = x ++ [d] ∧ is_space d = false.
Proof.
  unfold ends_solid. destruct (reverse s) as [|d r] eqn:E; [done|].
  simpl. intros Hd%negb_true_iff. exists (reverse r), d. split; [|done].
  apply (inj reverse). by rewrite reverse_snoc, reverse_involutive.
Qed.

Lemma collapse_app_ends_solid x w :
  ends_solid x = true →
  collapse_blanks (x ++ w) = collapse_blanks x ++ collapse_blanks w.
Proof.
  intros (x0 & d & -> & Hd)%ends_solid_snoc.
  rewrite <-app_assoc. simpl.
  rewrite (collapse_app_starts_solid x0 (d :: w)) by (simpl; by rewrite Hd).
  rewrite (collapse_app_starts_solid x0 [d]) by (simpl; by rewrite Hd).
  rewrite !collapse_solid by done. by rewrite <-app_assoc.
Qed.

Lemma collapse_paragraph p : paragraph p → paragraph (collapse_blanks p).
Proof.
  intros [Hs He]. split.
  - destruct p as [|d w]; [done|]. simpl in Hs.
    rewrite collapse_solid by by apply negb_true_iff. done.
  - apply ends_solid_snoc in He as (x & d & -> & Hd).
    rewrite collapse_app_starts_solid by (simpl; by rewrite Hd).
    rewrite collapse_solid by done. unfold ends_solid.
    rewrite reverse_app. simpl. by rewrite Hd.
Qed.

Lemma page_starts_solid p0 rest :
  starts_solid p0 = true → starts_solid (page p0 rest) = true.
Proof.
  destruct p0 as [|d w]; [done|]. by destruct rest as [|[g p] rest].
Qed.

Lemma page_ends_solid p0 rest :
  ends_solid p0 = true → Forall (λ gp, ends_solid gp.2 = true) rest →
  ends_solid (page p0 rest) = true.
Proof.
  intros Hp0 Hrest. revert p0 Hp0.
  induction Hrest as [|[g p] rest Hp Hrest IH]; intros p0 Hp0; [done|].
  simpl in *. specialize (IH p Hp).
  apply ends_solid_snoc in IH as (x & d & -> & Hd).
  unfold ends_solid. rewrite !app_assoc, reverse_app. simpl. by rewrite Hd.
Qed.

(** Collapsing works paragraph by paragraph and leaves one empty line in
    every gap. *)
Lemma collapse_page p0 slots rest trail :
  paragraph p0 →
  Forall well_formed slots →
  Forall2 fills slots rest →
  collapse_blanks (page p0 rest ++ trail)
  = normal_page p0 slots ++ collapse_blanks trail.
Proof.
  intros Hp0 Hwf Hfill. revert p0 Hp0 Hwf. unfold normal_page.
  induction Hfill as [|s [g p] slots rest [Hp (blank & Hb & Hg)] Hfill IH];
    intros p0 [Hs He] Hwf; simpl in *.
  - by apply collapse_app_ends_solid.
  - apply Forall_cons in Hwf as [(Hbefore & Hafter & Hpara) Hwf]. subst g p.
    rewrite <-!app_assoc.
    rewrite collapse_app_ends_solid by done.
    rewrite collapse_horizontal by done.
    rewrite (app_assoc blank), (collapse_app_starts_solid (blank ++ gap_after s)).
    + rewrite collapse_blank_lines, (IH (para s)) by done.
      by rewrite <-!app_assoc.
    + destruct Hpara as [Hps _]. destruct (para s) as [|d w]; [done|].
      by destruct rest as [|[??] ?].
Qed.

Lemma page_paragraphs slots rest :
  Forall well_formed slots → Forall2 fills slots rest →
  Forall (λ gp, ends_solid gp.2 = true) rest.
Proof.
  intros Hwf Hfill. induction Hfill as [|s [g p] slots rest [Hp _] Hfill IH];
    [constructor|].
  apply Forall_cons in Hwf as [(_ & _ & [_ He]) Hwf]. simpl in Hp. subst p.
  constructor; [done|by apply IH].
Qed.

Lemma lstrip_all_space x y :
  all_space x → lstrip is_space (x ++ y) = lstrip is_space y.
Proof. induction 1 as [|c x Hc Hx IH]; [done|]. simpl. by rewrite Hc. Qed.

Lemma lstrip_starts_solid y : starts_solid y = true → lstrip is_space y = y.
Proof.
  destruct y as [|d w]; [done|]. simpl. intros Hd%negb_true_iff. by rewrite Hd.
Qed.

Lemma py_strip_core lead body trail :
  all_space lead → all_space trail →
  starts_solid body = true → ends_solid body = true →
  py_strip is_space (lead ++ body ++ trail) = body.
Proof.
  intros Hl Ht Hs He. unfold py_strip, rstrip.
  rewrite lstrip_all_space by done.
  assert (starts_solid (body ++ trail) = true) as Hs'
    by (by destruct body).
  rewrite (lstrip_starts_solid (body ++ trail)) by done.
  rewrite reverse_app, lstrip_all_space.
  - rewrite lstrip_starts_solid by done. apply reverse_involutive.
  - unfold all_space. by apply Forall_reverse.
Qed.

(** Cleaning a page of paragraphs, with any whitespace before and
    behind, gives the paragraphs with one empty line in every gap. *)
Lemma clean_markdown_page lead p0 slots rest trail :
  all_space lead → all_space trail →
  paragraph p0 →
  Forall well_formed slots →
  Forall2 fills slots rest →
  clean_markdown (lead ++ page p0 rest ++ trail) = normal_page p0 slots.
Proof.
  intros Hl Ht Hp0 Hwf Hfill. unfold clean_markdown.
  fold (collapse_blanks (lead ++ page p0 rest ++ trail)).
  rewrite collapse_app_starts_solid.
  2:{ destruct Hp0 as [Hs _]. destruct p0 as [|d w]; [done|].
      by destruct rest as [|[??] ?]. }
  rewrite (collapse_page p0 slots) by done.
  apply py_strip_core.
  - apply re_sub_all_space; [apply RE_BLANKS_min|by repeat constructor|done].
  - apply re_sub_all_space; [apply RE_BLANKS_min|by repeat constructor|done].
  - apply page_starts_solid. by apply collapse_paragraph.
  - apply page_ends_solid.
    + by apply collapse_paragraph.
    + apply Forall_fmap. eapply Forall_impl; [exact Hwf|].
      intros s (_ & _ & Hp). simpl. by apply collapse_paragraph.
Qed.

Section Extraction.

Context `{Capabilities}.

(** C7.  Two pages whose Markdown has the same paragraphs and differs
    only in the blank lines of the gaps between them, where each gap
    holds one empty line, or two or more blank lines (which may hold
    whitespace), with any whitespace before the first and behind the
    last paragraph: both are cleaned to the same text, the paragraphs
    with exactly one empty line in every gap, and so they get the same
    digest.  A gap of one blank line that holds whitespace is not of
    this kind: see [blank_line_with_space_is_kept]. *)
Theorem blank_runs_do_not_change_digest
    (html1 html2 lead1 trail1 lead2 trail2 p0 : str) (slots : list slot)
    (rest1 rest2 : list (str * str)) :
  main_markdown html1 = Some (lead1 ++ page p0 rest1 ++ trail1) →
  main_markdown html2 = Some (lead2 ++ page p0 rest2 ++ trail2) →
  all_space lead1 → all_space trail1 → all_space lead2 → all_space trail2 →
  paragraph p0 →
  Forall well_formed slots →
  Forall2 fills slots rest1 →
  Forall2 fills slots rest2 →
  _extract_content html1 = Ok (normal_page p0 slots)
  ∧ _extract_content html2 = Ok (normal_page p0 slots)
  ∧ ∀ text1 text2,
      _extract_content html1 = Ok text1 →
      _extract_content html2 = Ok text2 →
      _calculate_hash text1 = _calculate_hash text2.
Proof.
  intros Hm1 Hm2 Hl1 Ht1 Hl2 Ht2 Hp0 Hwf Hr1 Hr2.
  assert (_extract_content html1 = Ok (normal_page p0 slots)) as He1.
  { unfold _extract_content. rewrite Hm1.
    by rewrite (clean_markdown_page lead1 p0 slots). }
  assert (_extract_content html2 = Ok (normal_page p0 slots)) as He2.
  { unfold _extract_content. rewrite Hm2.
    by rewrite (clean_markdown_page lead2 p0 slots). }
  split_and!; [done|done|].
  intros text1 text2. rewrite He1, He2. by intros [= <-] [= <-].
Qed.

End Extraction.

Example sample_discovery :
  extract_chapter_links (H := sample_site) default_config true = Ok sample_links.
Proof. vm_compute. reflexivity. Qed.

(** C7, as stated, fails: two pages that differ only in a run of blank
    lines, one blank line against three, each holding a space.  The
    pattern needs three newlines, so the single blank line is left as it
    is, with its space; the three blank lines become one empty line; the
    cleaned texts differ and so do their digests. *)
Lemma blank_line_with_space_is_kept :
  _extract_content (H := sample_site) (py "a" ++ [NL; 32; NL] ++ py "b")
  = Ok (py "a" ++ [NL; 32; NL] ++ py "b")
  ∧ _extract_content (H := sample_site)
      (py "a" ++ [NL; 32; NL; 32; NL; 32; NL] ++ py "b")
    = Ok (py "a" ++ [NL; NL] ++ py "b")
  ∧ _calculate_hash (H := sample_site) (py "a" ++ [NL; 32; NL] ++ py "b")
    ≠ _calculate_hash (H := sample_site) (py "a" ++ [NL; NL] ++ py "b").
Proof.
  split_and!; [vm_compute; reflexivity..|vm_compute; discriminate].
Qed.


(** C6, as stated, fails: the search link is accepted although its path
    is not below the path of the manual; the marker only occurs in its
    query. *)
Lemma discovery_accepts_marker_in_query :
  ¬ ∀ (site : Capabilities) (config : Config) (content : str)
      (links : list (str * str)),
      links_of_page (H := site) config content = Ok links →
      ∀ t u, (t, u) ∈ links → spec_in_namespace config u = true.
Proof.
  intros Hclaim.
  assert (links_of_page (H := sample_site) default_config (py "toc")
          = Ok sample_links) as Hlinks by (vm_compute; reflexivity).
  specialize (Hclaim sample_site default_config (py "toc") sample_links Hlinks
                (py "Search") sample_search_url).
  assert (spec_in_namespace default_config sample_search_url = false) as Hout
    by (vm_compute; reflexivity).
  rewrite Hout in Hclaim. discriminate Hclaim.
  unfold sample_links. do 2 apply list_elem_of_further. apply list_elem_of_here.
Qed.

Lemma ordered_results_in_discovery_order_witness :
  ordered_results
    (results_dict
       (process_all (H := sample_site) sample_links false sample_clock
          [2; 0; 1]%nat (start ∅ ∅)))
  = omap (chapter_result (H := sample_site)) sample_links.
Proof.
  apply (ordered_results_in_discovery_order (H := sample_site) sample_links
           false sample_clock [2; 0; 1]%nat ∅ ∅).
  - apply (bool_decide_unpack _). vm_compute. exact I.
  - apply (bool_decide_unpack _). vm_compute. exact I.
  - vm_compute. reflexivity.
Defined.


Lemma discovery_properties_witness :
  ∃ links,
    links_of_page (H := sample_site) default_config (py "toc") = Ok links
    ∧ NoDup links.*2
    ∧ ∀ t u, (t, u) ∈ links → https u.
Proof.
  destruct (discovery_properties (H := sample_site) default_config (py "toc")
              https) as (links & Hlinks & _ & Hnd & Heach & _).
  - exists {| href := Some (py "/2/the-omarchy-manual/91/welcome");
              text := py "Open Welcome" |}.
    split; [apply list_elem_of_here|]. vm_compute. by eexists.
  - intros r. reflexivity.
  - intros r. reflexivity.
  - intros a h Ha Hh Hhttp. simpl in Ha. unfold sample_anchors in Ha.
    repeat (apply elem_of_cons in Ha as [->|Ha]);
      [simpl in Hh; injection Hh as <-; vm_compute in Hhttp;
       first [discriminate Hhttp | reflexivity]..|].
    by apply elem_of_nil in Ha.
  - exists links. split_and!; [done|done|].
    intros t u Hin. by apply (Heach t u Hin).
Defined.

Lemma blank_runs_do_not_change_digest_witness :
  _calculate_hash (H := sample_site) (clean_markdown sample_welcome_page)
  = _calculate_hash (H := sample_site) (clean_markdown sample_welcome_page').
Proof.
  pose (s := {| gap_before := []; gap_after := []; para := py "to Omarchy" |}).
  assert (paragraph (py "Welcome")) as Hp0 by done.
  assert (Forall well_formed [s]) as Hwf.
  { constructor; [|constructor]. split_and!; [constructor|constructor|done]. }
  assert (Forall2 fills [s] [([NL; NL; NL; NL], py "to Omarchy")]) as Hr1.
  { constructor; [|constructor]. split; [done|].
    exists [NL; NL; NL; NL]. split; [|done].
    apply (more_blank_lines [NL; NL]).
    - by repeat constructor.
    - apply list_elem_of_here. }
  assert (Forall2 fills [s] [([NL; NL], py "to Omarchy")]) as Hr2.
  { constructor; [|constructor]. split; [done|].
    exists [NL; NL]. split; [constructor|done]. }
  exact (proj2 (proj2
    (blank_runs_do_not_change_digest (H := sample_site)
       sample_welcome_page sample_welcome_page' [] [] [] [] (py "Welcome") [s]
       [([NL; NL; NL; NL], py "to Omarchy")] [([NL; NL], py "to Omarchy")]
       eq_refl eq_refl (Forall_nil_2 _) (Forall_nil_2 _)
       (Forall_nil_2 _) (Forall_nil_2 _) Hp0 Hwf Hr1 Hr2))
    _ _ eq_refl eq_refl).
Defined.



Lemma failed_chapter_keeps_ledger_witness :
  (_process_chapter (H := sample_site) true ∅ (py "Missing")
     sample_missing_url (py "now")).2 = ∅.
Proof.
  eapply (failed_chapter_keeps_ledger (H := sample_site)).
  vm_compute. reflexivity.
Defined.

(** * Further properties of the scraper *)

(** ** Fetching *)

Section Fetching.

Context `{Capabilities}.

(** X1.  A page is returned exactly when the session is open and the
    transport answers with status 200, and what is returned is the body
    of that answer; without a session nothing is returned whatever the
    transport would say. *)
Theorem fetch_page_returns_iff (session : bool) (url body : str) :
  _fetch_page session url = Ok body
  ↔ session = true ∧ ∃ reason, http_get url = Response 200 reason body.
Proof.
  unfold _fetch_page. destruct session; simpl.
  - destruct (http_get url) as [status reason text|e|e] eqn:Hget.
    + destruct (status =? 200) eqn:Hs; simpl.
      * apply N.eqb_eq in Hs. subst. split.
        -- intros [= ->]. split; [done|]. by exists reason.
        -- intros [_ [r [= _ ->]]]. done.
      * apply N.eqb_neq in Hs. split; [done|].
        intros [_ [r [= -> _ _]]]. done.
    + split; [done|]. by intros [_ [r ?]].
    + split; [done|]. by intros [_ [r ?]].
  - split; [done|]. by intros [? _].
Qed.

End Fetching.

(** ** Sanitised names *)

Lemma py_strip_last p s init c : py_strip p s = init ++ [c] → p c = false.
Proof.
  unfold py_strip, rstrip. intros Hs.
  apply (f_equal reverse) in Hs.
  rewrite reverse_involutive, reverse_snoc in Hs. by apply lstrip_head in Hs.
Qed.

Lemma lstrip_unchanged p s :
  (∀ c rest, s = c :: rest → p c = false) → lstrip p s = s.
Proof.
  destruct s as [|c s]; [done|]. intros Hc. simpl.
  by rewrite (Hc c s eq_refl).
Qed.

Lemma py_strip_unchanged p s :
  (∀ c rest, s = c :: rest → p c = false) →
  (∀ c init, s = init ++ [c] → p c = false) →
  py_strip p s = s.
Proof.
  intros Hhead Hlast. unfold py_strip, rstrip.
  rewrite (lstrip_unchanged p s) by done.
  rewrite lstrip_unchanged; [apply reverse_involutive|].
  intros c rest Hrev. apply (Hlast c (reverse rest)).
  apply (inj reverse). by rewrite reverse_snoc, reverse_involutive.
Qed.

Lemma lstrip_all p s : (∀ c, c ∈ s → p c = true) → lstrip p s = [].
Proof.
  induction s as [|c s IH]; [done|]. intros Hall. simpl.
  rewrite (Hall c) by apply list_elem_of_here.
  apply IH. intros c' Hc'. apply Hall. by apply list_elem_of_further.
Qed.

Lemma spec_replace_unchanged s :
  (∀ c, c ∈ s → hostile c = false) → spec_replace_hostile s = s.
Proof.
  unfold spec_replace_hostile. induction s as [|c s IH]; [done|].
  intros Hall. cbn [fmap list_fmap].
  rewrite (Hall c) by apply list_elem_of_here. f_equal.
  apply IH. intros c' Hc'. apply Hall. by apply list_elem_of_further.
Qed.

Lemma spec_collapse_unchanged s :
  (∀ c, c ∈ s → is_space c = false) → spec_collapse_spaces false s = s.
Proof.
  induction s as [|c s IH]; [done|]. intros Hall. simpl.
  rewrite (Hall c) by apply list_elem_of_here. f_equal.
  apply IH. intros c' Hc'. apply Hall. by apply list_elem_of_further.
Qed.

(** A title without hostile characters and whitespace that neither
    begins nor ends with a dot or an underscore is only cut to length. *)
Lemma sanitize_unchanged title :
  (∀ c, c ∈ title → hostile c = false ∧ is_space c = false) →
  (∀ c rest, title = c :: rest → dot_or_underscore c = false) →
  (∀ c init, title = init ++ [c] → dot_or_underscore c = false) →
  _sanitize_filename title = take 100 title.
Proof.
  intros Hchars Hhead Hlast. rewrite sanitize_refines. unfold spec_sanitize.
  rewrite spec_replace_unchanged by (intros c Hc; by apply Hchars).
  rewrite spec_collapse_unchanged by (intros c Hc; by apply Hchars).
  by rewrite py_strip_unchanged.
Qed.

(** X2.  A title that holds no hostile character and no whitespace and
    neither begins nor ends with a dot or an underscore is its own
    filename stem, cut to 100 characters. *)
Theorem sanitize_clean_title (title : str) :
  (∀ c, c ∈ title → hostile c = false ∧ is_space c = false) →
  (∀ c rest, title = c :: rest → dot_or_underscore c = false) →
  (∀ c init, title = init ++ [c] → dot_or_underscore c = false) →
  _sanitize_filename title = take 100 title.
Proof. apply sanitize_unchanged. Qed.

(** X3.  A title made of nothing but hostile characters, whitespace, dots
    and underscores has the empty stem: its chapter is saved as [.md]. *)
Theorem sanitize_only_separators (title : str) :
  (∀ c, c ∈ title →
        hostile c = true ∨ is_space c = true ∨ dot_or_underscore c = true) →
  _sanitize_filename title = [] ∧ chapter_filename title = py ".md".
Proof.
  intros Hall.
  assert (_sanitize_filename title = []) as Hs.
  { rewrite sanitize_refines. unfold spec_sanitize, py_strip.
    rewrite lstrip_all; [done|].
    intros c [->|[Hc Hsp]]%spec_collapse_elem; [done|].
    unfold spec_replace_hostile in Hc.
    apply list_elem_of_fmap in Hc as (a & -> & Ha).
    destruct (hostile a) eqn:Hh; [done|].
    destruct (Hall a Ha) as [?|[?|?]]; congruence. }
  split; [done|]. unfold chapter_filename. by rewrite Hs.
Qed.

(** X4.  Sanitising is idempotent on every stem shorter than 100
    characters (a stem of 100 characters may have been cut behind a dot
    or an underscore, which a second pass would trim). *)
Theorem sanitize_idempotent (title : str) :
  (length (_sanitize_filename title) < 100)%nat →
  _sanitize_filename (_sanitize_filename title) = _sanitize_filename title.
Proof.
  intros Hlen.
  assert (_sanitize_filename title
          = py_strip dot_or_underscore
              (spec_collapse_spaces false (spec_replace_hostile title))) as Hs.
  { rewrite sanitize_refines in *. unfold spec_sanitize in *.
    rewrite length_take in Hlen. rewrite take_ge; [done|lia]. }
  rewrite sanitize_unchanged.
  - rewrite take_ge; [done|lia].
  - intros c. rewrite sanitize_refines. apply spec_sanitize_elem.
  - intros c rest. rewrite Hs. apply py_strip_head.
  - intros c init. rewrite Hs. apply py_strip_last.
Qed.

Lemma sanitize_clean_title_witness :
  _sanitize_filename (py "Getting-Started") = take 100 (py "Getting-Started").
Proof.
  apply sanitize_clean_title.
  - intros c Hc. unfold py in Hc. simpl in Hc.
    repeat (apply elem_of_cons in Hc as [->|Hc]; [done|]).
    by apply elem_of_nil in Hc.
  - intros c rest [= <- _]. done.
  - intros c init Heq. apply (f_equal reverse) in Heq.
    rewrite reverse_snoc in Heq. vm_compute in Heq. by injection Heq as <- _.
Defined.

Lemma sanitize_only_separators_witness :
  _sanitize_filename (py "?? ..") = [] ∧ chapter_filename (py "?? ..") = py ".md".
Proof.
  apply sanitize_only_separators.
  intros c Hc. unfold py in Hc. simpl in Hc.
  repeat (apply elem_of_cons in Hc as [->|Hc]; [vm_compute; tauto|]).
  by apply elem_of_nil in Hc.
Defined.

Lemma sanitize_idempotent_witness :
  _sanitize_filename (_sanitize_filename (py "Advanced: I/O & Networking"))
  = _sanitize_filename (py "Advanced: I/O & Networking").
Proof. apply sanitize_idempotent. vm_compute. lia. Defined.

(** ** Discovery that finds nothing *)

Section MorePipeline.

Context `{Capabilities}.

(** X5.  Discovery raises [No chapter links found] exactly when no anchor
    of the page qualifies, and a list it returns is never empty. *)
Theorem discovery_fails_iff (config : Config) (content : str) :
  (links_of_page config content
   = Raise (py "No chapter links found. The website structure may have changed.")
   ↔ ∀ a, a ∈ select_toc_links content → candidate config a = None)
  ∧ (∀ links, links_of_page config content = Ok links → links ≠ []).
Proof.
  destruct (foldl_add_link_discovered config (select_toc_links content))
    as [_ Hsub Hcov _].
  unfold links_of_page.
  destruct (foldl (add_link config) [] (select_toc_links content))
    as [|l links] eqn:Hfold.
  - split; [|done]. split; [intros _|done].
    intros a Ha. destruct (candidate config a) as [[t u]|] eqn:Hc; [|done].
    exfalso. apply (not_elem_of_nil u), (Hcov t u).
    apply list_elem_of_omap. by exists a.
  - split; [|by intros ? [= <-]]. split; [done|]. intros Hnone. exfalso.
    assert (l ∈ omap (candidate config) (select_toc_links content)) as Hl.
    { eapply elem_of_sublist; [apply list_elem_of_here|done]. }
    apply list_elem_of_omap in Hl as (a & Ha & Hc).
    by rewrite (Hnone a Ha) in Hc.
Qed.

(** ** The loop, step by step *)

(** ** Filenames that collide *)

Lemma on_completed_keyed links dry_run clock st j :
  (∀ k f c, results_dict st !! k = Some (f, c) →
            original_index links f = Some k) →
  ∀ k f c, results_dict (on_completed links dry_run clock st j) !! k
           = Some (f, c) →
           original_index links f = Some k.
Proof.
  intros Hkeyed k f c0.
  step_cases links dry_run clock st j; simpl; try by apply Hkeyed.
  - destruct (original_index links (chapter_filename t)) as [i0|] eqn:Hi0;
      [|by apply Hkeyed].
    destruct (decide (i0 = k)) as [->|Hne].
    + rewrite lookup_insert_eq. by intros [= <- <-].
    + rewrite lookup_insert_ne by done. apply Hkeyed.
  - destruct (original_index links (chapter_filename t)) as [i0|] eqn:Hi0;
      [|by apply Hkeyed].
    destruct (decide (i0 = k)) as [->|Hne].
    + rewrite lookup_insert_eq. by intros [= <- <-].
    + rewrite lookup_insert_ne by done. apply Hkeyed.
Qed.

Lemma sorted_keys_NoDup (d : gmap nat (str * str)) : NoDup (sorted_keys d).
Proof.
  unfold sorted_keys. rewrite merge_sort_Permutation.
  apply NoDup_fst_map_to_list.
Qed.

Lemma NoDup_fst_omap {K A B} (g : K → option (A * B)) (l : list K) :
  NoDup l →
  (∀ k1 k2 v1 v2, g k1 = Some v1 → g k2 = Some v2 → v1.1 = v2.1 → k1 = k2) →
  NoDup (omap g l).*1.
Proof.
  intros Hnd Hinj. induction Hnd as [|k l Hk Hnd IH]; [constructor|].
  cbn [omap list_omap]. destruct (g k) as [v|] eqn:Hg; [|done].
  cbn [fmap list_fmap]. constructor; [|done].
  intros (v' & Heq & (k' & Hk' & Hg')%list_elem_of_omap)%list_elem_of_fmap.
  assert (k = k') as -> by by eapply Hinj. done.
Qed.

(** X6.  Whatever the titles, the results hold at most one entry per
    filename, and an entry is filed under the index of the first chapter
    with its filename: a chapter whose filename repeats an earlier one
    never has an entry of its own. *)
Theorem results_one_per_filename
    (links : list (str * str)) (dry_run : bool) (clock : nat → str)
    (order : list nat) (m : ledger) (files : gmap str str) :
  (∀ k f c,
     results_dict (process_all links dry_run clock order (start m files)) !! k
     = Some (f, c) →
     original_index links f = Some k)
  ∧ NoDup (ordered_results
             (results_dict
                (process_all links dry_run clock order (start m files)))).*1.
Proof.
  assert (∀ k f c,
     results_dict (process_all links dry_run clock order (start m files)) !! k
     = Some (f, c) → original_index links f = Some k) as Hkeyed.
  { apply (process_all_preserved
             (λ st, ∀ k f c, results_dict st !! k = Some (f, c) →
                             original_index links f = Some k)).
    - intros st j. apply on_completed_keyed.
    - intros k f c. simpl. by rewrite lookup_empty. }
  split; [done|]. unfold ordered_results.
  apply NoDup_fst_omap; [apply sorted_keys_NoDup|].
  intros k1 k2 [f1 c1] [f2 c2] H1 H2 Hf. simpl in Hf. subst f2.
  apply Hkeyed in H1, H2. congruence.
Qed.

Lemma original_index_le links i title url i0 :
  links !! i = Some (title, url) →
  original_index links (chapter_filename title) = Some i0 →
  (i0 ≤ i)%nat.
Proof.
  unfold original_index. intros Hi Hfind.
  destruct (list_find _ links) as [[k x]|] eqn:E; [|done].
  simpl in Hfind. injection Hfind as ->.
  apply list_find_Some in E as (_ & _ & Hmin).
  destruct (decide (i0 ≤ i)%nat); [done|]. exfalso.
  apply (Hmin i (title, url)); [done|lia|done].
Qed.

(** X7.  The chapter that completes last among those with its filename
    decides the entry: whatever was filed under that filename before, at
    the end of a loop that no exception has left the entry holds its
    content, under the index of the first chapter with that filename. *)
Theorem last_completed_wins
    (links : list (str * str)) (dry_run : bool) (clock : nat → str)
    (before after : list nat) (j : nat) (title url content : str)
    (st : loop_state) :
  links !! j = Some (title, url) →
  chapter_content true url = Some content →
  (∀ k t u, k ∈ after → links !! k = Some (t, u) →
            chapter_filename t = chapter_filename title →
            chapter_content true u = None) →
  raised (process_all links dry_run clock (before ++ j :: after) st) = None →
  ∃ i0,
    original_index links (chapter_filename title) = Some i0
    ∧ (i0 ≤ j)%nat
    ∧ results_dict (process_all links dry_run clock (before ++ j :: after) st)
        !! i0
      = Some (chapter_filename title, content).
Proof.
  intros Hj Hc Hafter Hfin.
  destruct (original_index_is_Some links j title url Hj) as [i0 Hi0].
  exists i0. split_and!; [done|by eapply original_index_le|].
  assert (process_all links dry_run clock (before ++ j :: after) st
          = process_all links dry_run clock after
              (on_completed links dry_run clock
                 (process_all links dry_run clock before st) j)) as Heq
    by (unfold process_all; by rewrite foldl_app).
  rewrite Heq in *. clear Heq.
  set (st1 := process_all links dry_run clock before st) in *.
  assert (raised (on_completed links dry_run clock st1 j) = None) as Hstep
    by (by eapply process_all_finished_start).
  assert (results_dict (on_completed links dry_run clock st1 j) !! i0
          = Some (chapter_filename title, content)) as Hnow.
  { rewrite (on_completed_ok _ _ _ _ _ _ _ _ Hj Hc Hstep). simpl.
    rewrite Hi0. apply lookup_insert_eq. }
  clear Hstep. generalize dependent (on_completed links dry_run clock st1 j).
  clear st1. induction after as [|k after IH]; intros st2 Hfin Hnow; [done|].
  pose proof (process_all_finished_step _ _ _ _ _ _ Hfin) as Hstep.
  rewrite process_all_cons in *. apply IH; [|done|].
  - intros k' t u Hk'. apply Hafter. by apply list_elem_of_further.
  - running_cases links dry_run clock st2 k Hstep; simpl; [|done..].
    destruct (original_index links (chapter_filename t)) as [i1|] eqn:Hi1;
      [|done].
    destruct (decide (i1 = i0)) as [->|Hne]; [|by rewrite lookup_insert_ne].
    exfalso.
    pose proof (original_index_Some _ _ _ Hi0) as (t0 & u0 & Hl0 & Hf0).
    pose proof (original_index_Some _ _ _ Hi1) as (t1 & u1 & Hl1 & Hf1).
    assert (chapter_filename t = chapter_filename title) as Hsame by congruence.
    rewrite (Hafter k t u (list_elem_of_here _ _) Hl Hsame) in Hu. done.
Qed.

(** ** The list of changed chapters *)

Lemma process_all_changed (links : list (str * str)) (dry_run : bool)
    (clock : nat → str) (m : ledger) (order : list nat) :
  NoDup links.*2 → NoDup order →
  ∀ st,
    (∀ i t u, i ∈ order → links !! i = Some (t, u) →
              metadata st !! u = m !! u) →
    raised (process_all links dry_run clock order st) = None →
    changed_chapters (process_all links dry_run clock order st)
    = changed_chapters st ++ omap (reported_changed links m) order.
Proof.
  intros Hurls Hnd.
  induction Hnd as [|i order Hi Hnd IH]; intros st Hst Hfin.
  { simpl. by rewrite app_nil_r. }
  pose proof (process_all_finished_step _ _ _ _ _ _ Hfin) as Hstep.
  rewrite process_all_cons in *.
  cbn [omap list_omap]. rewrite IH; [| |done].
  - unfold reported_changed at 2.
    running_cases links dry_run clock st i Hstep;
      rewrite Hl; [|by rewrite Hu|done].
    rewrite Hu. simpl. unfold stored_hash.
    rewrite (Hst i t u (list_elem_of_here _ _) Hl).
    destruct (bool_decide _); simpl; [done|]. by rewrite <-app_assoc.
  - intros i' t' u' Hi' Hl'.
    rewrite <-(Hst i' t' u' (list_elem_of_further _ _ _ Hi') Hl').
    running_cases links dry_run clock st i Hstep; simpl; [|done..].
    apply lookup_insert_ne. intros ->. apply Hi.
    assert (i = i') as -> ; [|done].
    eapply (NoDup_lookup _ _ _ _ Hurls); rewrite list_lookup_fmap.
    + by rewrite Hl.
    + by rewrite Hl'.
Qed.

(** X8.  With pairwise distinct URLs and every task completing once, at
    the end of a loop that no exception has left the list of changed
    chapters holds, in completion order, the filename of every chapter
    that succeeds with a digest other than the one the ledger held when
    the run began: entries written during the run do not enter the
    comparison. *)
Theorem changed_in_completion_order
    (links : list (str * str)) (dry_run : bool) (clock : nat → str)
    (order : list nat) (m : ledger) (files : gmap str str) :
  NoDup links.*2 → NoDup order →
  raised (process_all links dry_run clock order (start m files)) = None →
  changed_chapters (process_all links dry_run clock order (start m files))
  = omap (reported_changed links m) order.
Proof.
  intros Hurls Hnd Hfin.
  by rewrite (process_all_changed links dry_run clock m order Hurls Hnd).
Qed.

(** X9.  On a first run, with no ledger, every chapter that succeeds is
    reported as changed at the end of a loop that no exception has left
    (a digest is never the empty string). *)
Theorem first_run_reports_every_chapter
    (links : list (str * str)) (dry_run : bool) (clock : nat → str)
    (order : list nat) (files : gmap str str) :
  (∀ content, sha256_hex content ≠ []) →
  NoDup links.*2 → NoDup order →
  raised (process_all links dry_run clock order
            (start (_load_metadata None) files)) = None →
  changed_chapters
    (process_all links dry_run clock order (start (_load_metadata None) files))
  = omap (λ i, links !! i ≫= λ link, fst <$> chapter_result link) order.
Proof.
  intros Hhash Hurls Hnd Hfin.
  rewrite (process_all_changed links dry_run clock ∅ order Hurls Hnd) by done.
  simpl. apply list_omap_ext, Forall2_same_length_lookup_2; [done|].
  intros k i i' Hi Hi'. rewrite Hi in Hi'. injection Hi' as <-.
  unfold reported_changed, chapter_result.
  destruct (links !! i) as [[t u]|]; [|done]. simpl.
  destruct (chapter_content true u) as [c|]; [|done]. simpl.
  unfold stored_hash. rewrite lookup_empty.
  rewrite bool_decide_false; [done|]. apply Hhash.
Qed.

(** ** What the loop leaves alone *)

(** X10.  The loop never removes a ledger entry, and the entry of a URL
    that is not in the discovered list is at the end what it was at the
    start: entries of chapters that left the table of contents stay. *)
Theorem ledger_keeps_other_entries
    (links : list (str * str)) (dry_run : bool) (clock : nat → str)
    (order : list nat) (st : loop_state) :
  (∀ url, is_Some (metadata st !! url) →
          is_Some (metadata (process_all links dry_run clock order st) !! url))
  ∧ (∀ url, url ∉ links.*2 →
            metadata (process_all links dry_run clock order st) !! url
            = metadata st !! url).
Proof.
  apply (process_all_preserved
           (λ st', (∀ url, is_Some (metadata st !! url) →
                           is_Some (metadata st' !! url))
                   ∧ (∀ url, url ∉ links.*2 →
                             metadata st' !! url = metadata st !! url)));
    [|done].
  intros st' j [Hdom Hother].
  step_cases links dry_run clock st' j; simpl; try done.
  - split.
    + intros url Hurl. apply lookup_insert_is_Some'. right. by apply Hdom.
    + intros url Hurl. rewrite lookup_insert_ne; [by apply Hother|].
      intros ->. apply Hurl. apply list_elem_of_fmap. exists (t, url).
      split; [done|]. by eapply list_elem_of_lookup_2.
  - split.
    + intros url Hurl. apply lookup_insert_is_Some'. right. by apply Hdom.
    + intros url Hurl. rewrite lookup_insert_ne; [by apply Hother|].
      intros ->. apply Hurl. apply list_elem_of_fmap. exists (t, url).
      split; [done|]. by eapply list_elem_of_lookup_2.
Qed.

(** X11.  The loop keeps the ledger consistent: when every entry is filed
    under its own URL and names the file of its title before the loop, so
    it is after it. *)
Theorem ledger_stays_consistent
    (links : list (str * str)) (dry_run : bool) (clock : nat → str)
    (order : list nat) (st : loop_state) :
  consistent (metadata st) →
  consistent (metadata (process_all links dry_run clock order st)).
Proof.
  apply (process_all_preserved (λ st', consistent (metadata st'))).
  intros st' j Hcons.
  step_cases links dry_run clock st' j; simpl; try done.
  - intros url e'. destruct (decide (u = url)) as [->|Hne].
    + rewrite lookup_insert_eq. by intros [= <-].
    + rewrite lookup_insert_ne by done. apply Hcons.
  - intros url e'. destruct (decide (u = url)) as [->|Hne].
    + rewrite lookup_insert_eq. by intros [= <-].
    + rewrite lookup_insert_ne by done. apply Hcons.
Qed.

Lemma process_all_dry_files links clock order st :
  chapter_files (process_all links true clock order st) = chapter_files st.
Proof.
  apply (process_all_preserved
           (λ st', chapter_files st' = chapter_files st)); [|done].
  intros st' j Hfiles.
  by step_cases links true clock st' j.
Qed.

(** X12.  A dry run writes nothing: the metadata file and the chapter
    files it returns are the ones it was given. *)
Theorem dry_run_writes_nothing (config : Config)
    (metadata_file : option ledger) (files : gmap str str)
    (clock : nat → str) (order : list nat) (report : run_report) :
  run config true metadata_file files clock order = Returned report →
  report_metadata_file report = metadata_file
  ∧ chapter_files (report_state report) = files.
Proof.
  unfold run. destruct (extract_chapter_links config true) as [links|]; [|done].
  destruct (max_concurrent config <? 0)%Z; [done|].
  destruct (max_concurrent config =? 0)%Z; [done|].
  destruct (raised _); [done|].
  intros [= <-]. simpl. split; [done|]. by rewrite process_all_dry_files.
Qed.

(** X13.  Only files of chapters that succeed are written: a name that
    is the filename of no such chapter holds at the end what it held at
    the start, so the file of a chapter that fails now is left as an
    earlier run wrote it. *)
Theorem only_chapter_files_written
    (links : list (str * str)) (dry_run : bool) (clock : nat → str)
    (order : list nat) (st : loop_state) (name : str) :
  (∀ t u c, (t, u) ∈ links → chapter_content true u = Some c →
            chapter_filename t ≠ name) →
  chapter_files (process_all links dry_run clock order st) !! name
  = chapter_files st !! name.
Proof.
  intros Hname.
  apply (process_all_preserved
           (λ st', chapter_files st' !! name = chapter_files st !! name));
    [|done].
  intros st' j Hfiles.
  step_cases links dry_run clock st' j; simpl; try done.
  destruct dry_run; [done|]. rewrite lookup_insert_ne; [done|].
  apply (Hname t u c); [|done]. by eapply list_elem_of_lookup_2.
Qed.

(** ** Every chapter is accounted for *)

Lemma warnings_snoc_warning st e :
  filter (λ o, is_warning o = true) (printed st ++ [Warning e])
  = filter (λ o, is_warning o = true) (printed st) ++ [Warning e].
Proof. by rewrite filter_app. Qed.

Lemma warnings_snoc_would_save (l : list output) f :
  filter (λ o, is_warning o = true) (l ++ [WouldSave f])
  = filter (λ o, is_warning o = true) l.
Proof. rewrite filter_app. apply app_nil_r. Qed.

Lemma process_all_warnings links dry_run clock order :
  ∀ st, raised (process_all links dry_run clock order st) = None →
        length (warnings (process_all links dry_run clock order st))
        = (length (warnings st)
           + length (filter (λ i, fails links i = true) order))%nat.
Proof.
  unfold warnings.
  induction order as [|i order IH]; intros st Hfin; [simpl; lia|].
  pose proof (process_all_finished_step _ _ _ _ _ _ Hfin) as Hstep.
  rewrite process_all_cons in *. rewrite IH, filter_cons by done.
  running_cases links dry_run clock st i Hstep.
  - assert (fails links i = false) as Hf by (unfold fails; by rewrite Hl, Hu).
    rewrite decide_False by congruence. simpl. destruct dry_run; [|done].
    by rewrite warnings_snoc_would_save.
  - assert (fails links i = true) as Hf by (unfold fails; by rewrite Hl, Hu).
    rewrite decide_True by done. cbn [printed].
    rewrite warnings_snoc_warning, length_app. simpl. lia.
  - assert (fails links i = false) as Hf by (unfold fails; by rewrite Hl).
    by rewrite decide_False by congruence.
Qed.

Lemma results_and_failures links (l : list nat) :
  (∀ i, i ∈ l → (i < length links)%nat) →
  (length (omap (λ i, links !! i ≫= chapter_result) l)
   + length (filter (λ i, fails links i = true) l) = length l)%nat.
Proof.
  induction l as [|i l IH]; intros Hl; [done|].
  cbn [omap list_omap]. rewrite filter_cons.
  assert (length (omap (λ i, links !! i ≫= chapter_result) l)
          + length (filter (λ i, fails links i = true) l) = length l)%nat
    as IH'.
  { apply IH. intros k Hk. apply Hl. by apply list_elem_of_further. }
  destruct (lookup_lt_is_Some_2 links i (Hl i (list_elem_of_here _ _)))
    as [[t u] Hi].
  destruct (chapter_content true u) as [c|] eqn:Hu.
  - assert (fails links i = false) as Hf by (unfold fails; by rewrite Hi, Hu).
    rewrite decide_False by congruence.
    rewrite Hi. simpl. unfold chapter_result at 1. simpl. rewrite Hu.
    simpl. lia.
  - assert (fails links i = true) as Hf by (unfold fails; by rewrite Hi, Hu).
    rewrite decide_True by done.
    rewrite Hi. simpl. unfold chapter_result at 1. simpl. rewrite Hu.
    simpl. lia.
Qed.

(** X14.  With pairwise distinct sanitised filenames and every task
    completing once, at the end of a loop that no exception has left
    every chapter is in exactly one place: the number of results and the
    number of warnings add up to the number of chapters discovered. *)
Theorem every_chapter_accounted
    (links : list (str * str)) (dry_run : bool) (clock : nat → str)
    (order : list nat) (m : ledger) (files : gmap str str) :
  NoDup (_sanitize_filename <$> links.*1) →
  order ≡ₚ seq 0 (length links) →
  raised (process_all links dry_run clock order (start m files)) = None →
  (length (ordered_results
             (results_dict
                (process_all links dry_run clock order (start m files))))
   + length (warnings (process_all links dry_run clock order (start m files)))
   = length links)%nat.
Proof.
  intros Hnd Hperm Hfin.
  rewrite (ordered_results_tabulate _ links chapter_result).
  2:{ intros i. rewrite process_all_results by done. simpl.
      rewrite lookup_empty. destruct (decide (i ∈ order)) as [Hin|Hout].
      - by destruct (links !! i ≫= chapter_result).
      - rewrite Hperm, elem_of_seq in Hout.
        rewrite (lookup_ge_None_2 links i); [done|lia]. }
  rewrite process_all_warnings by done. simpl. rewrite Hperm.
  rewrite <-(omap_lookup_seq chapter_result links).
  rewrite results_and_failures; [apply length_seq|].
  intros i Hi%elem_of_seq. lia.
Qed.

End MorePipeline.

(** ** More on the admission gate *)

Section MoreGateFacts.

Import Gate.

Lemma count_none (s : stage) (l : list stage) :
  s ∉ l → length (filter (λ t, t = s) l) = 0%nat.
Proof.
  intros Hs. induction l as [|x l IH]; [done|]. rewrite filter_cons.
  destruct (decide (x = s)) as [->|Hne].
  - exfalso. apply Hs, list_elem_of_here.
  - apply IH. intros Hin. apply Hs. by apply list_elem_of_further.
Qed.

(** X15.  No permit is lost and none is made up: the semaphore never
    holds more permits than the limit, and once every chapter has
    completed or failed it holds all of them again. *)
Theorem permits_all_returned (limit n : nat) (trace : list event)
    (st : state) :
  exec (init limit n) trace = Some st →
  (permits st ≤ limit)%nat
  ∧ (Forall finished (tasks st) → permits st = limit).
Proof.
  intros Hex. apply exec_invariant in Hex as (Hb & _ & _).
  destruct (init_measures limit n) as (Hb0 & _ & _).
  unfold balance in *. split; [lia|].
  intros Hfin. assert (fetching st = 0%nat) as Hf; [|lia].
  apply count_none. intros Hin.
  eapply Forall_forall in Hfin; [|done]. by destruct Hfin.
Qed.

Lemma fire_admitted st ev st' i :
  fire st ev = Some st' →
  (admitted st' i = (if admits i ev then 1 else 0) + admitted st i)%nat
  ∧ (over st' i = (if ends i ev then 1 else 0) + over st i)%nat
  ∧ (over st i ≤ admitted st i)%nat.
Proof.
  unfold admitted, over.
  destruct ev as [j|j|j]; simpl;
    destruct (tasks st !! j) as [[]|] eqn:Hj; try done.
  - destruct (permits st); [done|]. intros [= <-]. simpl.
    case_bool_decide as Hji.
    + subst j. rewrite list_lookup_insert_eq by by eapply lookup_lt_Some.
      rewrite Hj. lia.
    + rewrite list_lookup_insert_ne by done.
      destruct (tasks st !! i) as [[]|]; lia.
  - intros [= <-]. simpl. case_bool_decide as Hji.
    + subst j. rewrite list_lookup_insert_eq by by eapply lookup_lt_Some.
      rewrite Hj. lia.
    + rewrite list_lookup_insert_ne by done.
      destruct (tasks st !! i) as [[]|]; lia.
  - intros [= <-]. simpl. case_bool_decide as Hji.
    + subst j. rewrite list_lookup_insert_eq by by eapply lookup_lt_Some.
      rewrite Hj. lia.
    + rewrite list_lookup_insert_ne by done.
      destruct (tasks st !! i) as [[]|]; lia.
Qed.

Lemma exec_admitted trace i : ∀ st st',
  exec st trace = Some st' →
  (admitted st' i = admissions i trace + admitted st i)%nat
  ∧ (over st' i = endings i trace + over st i)%nat
  ∧ (over st' i ≤ admitted st' i)%nat.
Proof.
  unfold admissions, endings.
  induction trace as [|ev trace IH]; intros st st' Hex; simpl in Hex.
  - injection Hex as <-. simpl. split_and!; [done|done|].
    unfold over, admitted. destruct (tasks st !! i) as [[]|]; lia.
  - destruct (fire st ev) as [st1|] eqn:Hf; [|done].
    apply (fire_admitted _ _ _ i) in Hf as (Ha & Ho & _).
    apply IH in Hex as (Ha' & Ho' & Hle). rewrite !filter_cons.
    destruct (admits i ev), (ends i ev); simpl in *;
      repeat case_decide; try congruence; simpl; lia.
Qed.

(** X16.  In every execution from the start each chapter is admitted at
    most once, and it ends (returns or fails) at most once and only
    after it was admitted: no chapter is fetched twice. *)
Theorem one_fetch_per_chapter (limit n : nat) (trace : list event)
    (st : state) (i : nat) :
  exec (init limit n) trace = Some st →
  (endings i trace ≤ admissions i trace)%nat
  ∧ (admissions i trace ≤ 1)%nat.
Proof.
  intros Hex. apply (exec_admitted _ i) in Hex as (Ha & Ho & Hle).
  assert (admitted (init limit n) i = 0%nat) as Ha0.
  { unfold admitted. simpl. destruct (replicate n Queued !! i) eqn:E; [|done].
    by apply lookup_replicate in E as [-> _]. }
  assert (over (init limit n) i = 0%nat) as Ho0.
  { unfold over. simpl. destruct (replicate n Queued !! i) eqn:E; [|done].
    by apply lookup_replicate in E as [-> _]. }
  split; [lia|]. rewrite Ha0 in Ha. unfold admitted in Ha.
  destruct (tasks st !! i) as [[]|]; lia.
Qed.

Lemma exec_app st trace1 trace2 st1 st2 :
  exec st trace1 = Some st1 → exec st1 trace2 = Some st2 →
  exec st (trace1 ++ trace2) = Some st2.
Proof.
  revert st. induction trace1 as [|ev trace1 IH]; intros st H1 H2; simpl in *.
  - by injection H1 as ->.
  - destruct (fire st ev); [|done]. by apply IH.
Qed.

Lemma drain_from st :
  (0 < balance st)%nat →
  ∃ trace st', exec st trace = Some st' ∧ Forall finished (tasks st').
Proof.
  remember (work_left st) as w eqn:Hw. revert st Hw.
  induction (lt_wf w) as [w _ IH]. intros st -> Hpos.
  destruct (progress st Hpos) as [Hfin|(ev & st1 & Hf)].
  - by exists [], st.
  - pose proof (fire_invariant _ _ _ Hf) as (Hb & _ & Hwl).
    destruct (IH (work_left st1)) with (st := st1)
      as (trace & st' & Hex & Hfin); [lia|done|lia|].
    exists (ev :: trace), st'. split; [|done]. simpl. by rewrite Hf.
Qed.

(** X17.  With a limit of at least one there is no dead end: from every
    state the gate can reach, the run can be driven on until every
    chapter has completed or failed, and every execution that gets there
    has exactly two events per chapter. *)
Theorem gate_never_stuck (limit n : nat) (trace : list event) (st : state) :
  (1 ≤ limit)%nat →
  exec (init limit n) trace = Some st →
  (∃ trace' st', exec st trace' = Some st'
                 ∧ Forall finished (tasks st'))
  ∧ (Forall finished (tasks st) → length trace = (2 * n)%nat).
Proof.
  intros Hlimit Hex.
  apply exec_invariant in Hex as (Hb & _ & Hw).
  destruct (init_measures limit n) as (Hb0 & _ & Hw0). split.
  - apply drain_from. lia.
  - intros Hfin. assert (work_left st = 0%nat) as Hz; [|lia].
    unfold work_left, fetching, count.
    rewrite !count_none; [done| |].
    + intros Hin. eapply Forall_forall in Hfin; [|done]. by destruct Hfin.
    + intros Hin. eapply Forall_forall in Hfin; [|done]. by destruct Hfin.
Qed.

End MoreGateFacts.

(** ** The combined file *)

Lemma str_join_cons sep p q rest :
  str_join sep (p :: q :: rest) = p ++ sep ++ str_join sep (q :: rest).
Proof. done. Qed.

Lemma str_join_app sep l1 l2 :
  l1 ≠ [] → l2 ≠ [] →
  str_join sep (l1 ++ l2) = str_join sep l1 ++ sep ++ str_join sep l2.
Proof.
  intros H1 H2. induction l1 as [|p l1 IH]; [done|].
  destruct l1 as [|q l1].
  - destruct l2 as [|r l2]; [done|]. done.
  - change ((p :: q :: l1) ++ l2) with (p :: q :: (l1 ++ l2)).
    rewrite !str_join_cons.
    change (q :: l1 ++ l2) with ((q :: l1) ++ l2).
    rewrite IH by done. by rewrite <-!app_assoc.
Qed.

Lemma chapter_block_parts (f c : str) :
  [NL] ++ str_join [NL]
            [ [NL] ++ py "# " ++ chapter_heading f ++ [NL]; c;
              [NL] ++ py "---" ++ [NL] ]
  = chapter_block (f, c).
Proof.
  unfold chapter_block. cbn [str_join fst snd].
  rewrite <-!app_assoc. reflexivity.
Qed.

Lemma str_join_blocks (pre : list str) (results : list (str * str)) :
  pre ≠ [] →
  str_join [NL]
    (pre ++ (results ≫= λ '(filename, content),
               [ [NL] ++ py "# " ++ chapter_heading filename ++ [NL];
                 content;
                 [NL] ++ py "---" ++ [NL] ]))
  = str_join [NL] pre ++ concat (chapter_block <$> results).
Proof.
  revert pre. induction results as [|[f c] results IH]; intros pre Hpre.
  - simpl. by rewrite !app_nil_r.
  - cbn [mbind list_bind fmap list_fmap concat].
    rewrite app_assoc, IH.
    2:{ intros Hnil. by apply app_eq_nil in Hnil as [_ ?]. }
    rewrite str_join_app by done.
    by rewrite chapter_block_parts, <-!app_assoc.
Qed.

(** X18.  The saved combined file is the header followed by one block
    per result, in the order of the results; a block holds the heading
    and then the Markdown of the chapter as it is. *)
Theorem combined_file_blocks (generated : str) (results : list (str * str)) :
  _create_combined_file false generated results
  = Saved (combined_header generated ++ concat (chapter_block <$> results)).
Proof.
  unfold _create_combined_file, combined_content.
  rewrite str_join_blocks by done. f_equal. f_equal.
  unfold combined_header. cbn [str_join].
  rewrite <-!app_assoc. reflexivity.
Qed.

Lemma str_join_length (parts : list str) :
  parts ≠ [] →
  (length (str_join [NL] parts) + 1
   = length (concat parts) + length parts)%nat.
Proof.
  induction parts as [|p parts IH]; [done|]. intros _.
  destruct parts as [|q parts].
  - simpl. rewrite app_nil_r. lia.
  - rewrite str_join_cons. cbn [concat]. rewrite !length_app.
    specialize (IH ltac:(done)). cbn [concat] in IH.
    rewrite length_app in IH. simpl in *. lia.
Qed.

Lemma combined_content_length generated results :
  length (combined_content generated results) = (3 + 3 * length results)%nat.
Proof.
  unfold combined_content. rewrite length_app. simpl. f_equal. f_equal. f_equal.
  induction results as [|[f c] results IH]; [done|].
  cbn [mbind list_bind]. rewrite length_app, IH. simpl. lia.
Qed.

(** X19.  The length a dry run announces is not the length of the file a
    real run saves: the parts are counted without the newlines that join
    them, so the file is longer by two characters and three more per
    chapter. *)
Theorem dry_run_length_short (generated : str) (results : list (str * str)) :
  ∃ text characters,
    _create_combined_file false generated results = Saved text
    ∧ _create_combined_file true generated results = Announced characters
    ∧ length text = (characters + 3 * length results + 2)%nat.
Proof.
  eexists _, _. split_and!; [done|done|].
  pose proof (str_join_length (combined_content generated results)) as Hlen.
  rewrite combined_content_length in Hlen.
  assert (combined_content generated results ≠ []) as Hne by done.
  specialize (Hlen Hne). lia.
Qed.

(** ** From the title to the heading *)

Lemma word_char_facts c :
  word_char c = true →
  hostile c = false ∧ is_space c = false ∧ c ≠ 95 ∧ c ≠ 46.
Proof.
  unfold word_char. intros Hc.
  repeat (apply andb_true_iff in Hc as [Hc ?]).
  repeat match goal with
         | Hn : negb _ = true |- _ => apply negb_true_iff in Hn
         end.
  split_and!; [done|done| |]; by apply N.eqb_neq.
Qed.

Lemma spec_collapse_word b w s :
  w ≠ [] → (∀ c, c ∈ w → is_space c = false) →
  spec_collapse_spaces b (w ++ s) = w ++ spec_collapse_spaces false s.
Proof.
  intros Hne Hw. destruct w as [|c w]; [done|]. clear Hne.
  cbn [app spec_collapse_spaces].
  rewrite (Hw c) by apply list_elem_of_here. f_equal.
  assert (∀ c', c' ∈ w → is_space c' = false) as Hw'
    by (intros c' Hc'; apply Hw; by apply list_elem_of_further).
  clear Hw. induction w as [|d w IH]; [done|].
  cbn [app spec_collapse_spaces].
  rewrite (Hw' d) by apply list_elem_of_here. f_equal.
  apply IH. intros c' Hc'. apply Hw'. by apply list_elem_of_further.
Qed.

Lemma str_join_words_head sep w words :
  plain_word w → ∃ c rest, str_join sep (w :: words) = c :: rest
                           ∧ word_char c = true.
Proof.
  intros [Hne Hw]. destruct w as [|c w]; [done|].
  exists c. destruct words as [|w' words]; eexists; split;
    try reflexivity; apply Hw, list_elem_of_here.
Qed.

Lemma str_join_words_last sep words :
  words ≠ [] → Forall plain_word words →
  ∃ init c, str_join sep words = init ++ [c] ∧ word_char c = true.
Proof.
  intros Hne Hwords. induction Hwords as [|w words [Hw Hc] Hwords IH];
    [done|].
  destruct words as [|w' words].
  - destruct (exists_last Hw) as (init & c & ->). exists init, c.
    split; [done|]. apply Hc, elem_of_app. right. apply list_elem_of_here.
  - destruct IH as (init & c & Heq & Hword); [done|].
    exists (w ++ sep ++ init), c. split; [|done].
    rewrite str_join_cons, Heq. by rewrite <-!app_assoc.
Qed.

Lemma spec_collapse_join words :
  Forall plain_word words →
  spec_collapse_spaces false (str_join (py " ") words)
  = str_join (py "_") words.
Proof.
  induction 1 as [|w words [Hne Hw] Hwords IH]; [done|].
  assert (∀ c, c ∈ w → is_space c = false) as Hsp.
  { intros c Hc. by apply Hw, word_char_facts in Hc as (_ & ? & _). }
  destruct words as [|w' words].
  - cbn [str_join]. by apply spec_collapse_unchanged.
  - rewrite !str_join_cons, spec_collapse_word by done.
    f_equal. change (py " ") with [32] in *. change (py "_") with [95] in *.
    cbn [app spec_collapse_spaces]. change (is_space 32) with true.
    cbn iota. f_equal. rewrite spec_collapse_in_run, <-IH. f_equal.
    apply Forall_cons in Hwords as [Hw' _].
    destruct (str_join_words_head [32] w' words Hw') as (c & rest & -> & Hc).
    apply word_char_facts in Hc as (_ & Hc & _). simpl. by rewrite Hc.
Qed.

Lemma str_join_elem sep words c :
  c ∈ str_join sep words → c ∈ sep ∨ ∃ w, w ∈ words ∧ c ∈ w.
Proof.
  induction words as [|w words IH]; [by intros ?%elem_of_nil|].
  destruct words as [|w' words].
  - intros Hc. right. exists w. split; [apply list_elem_of_here|done].
  - rewrite str_join_cons, !elem_of_app. intros [Hc|[Hc|Hc]].
    + right. exists w. split; [apply list_elem_of_here|done].
    + by left.
    + destruct (IH Hc) as [?|(x & Hx & ?)]; [by left|].
      right. exists x. split; [by apply list_elem_of_further|done].
Qed.

Lemma str_join_length_sep (a b : N) words :
  length (str_join [a] words) = length (str_join [b] words).
Proof.
  induction words as [|w words IH]; [done|]. destruct words as [|w' words];
    [done|]. rewrite !str_join_cons, !length_app, IH. done.
Qed.

(** The stem of a title of plain words joined by single spaces is the
    words joined by underscores. *)
Lemma sanitize_plain_words words :
  words ≠ [] → Forall plain_word words →
  (length (str_join (py " ") words) ≤ 100)%nat →
  _sanitize_filename (str_join (py " ") words) = str_join (py "_") words.
Proof.
  intros Hne Hwords Hlen. rewrite sanitize_refines. unfold spec_sanitize.
  rewrite spec_replace_unchanged.
  2:{ intros c [Hc|(w & Hw & Hc)]%str_join_elem.
      - change (py " ") with [32] in Hc.
        by apply list_elem_of_singleton in Hc as ->.
      - eapply Forall_forall in Hwords as [_ Hchars]; [|done].
        by apply Hchars, word_char_facts in Hc as (? & _). }
  rewrite spec_collapse_join by done.
  rewrite py_strip_unchanged.
  - apply take_ge. change (py "_") with [95]. change (py " ") with [32] in Hlen.
    by rewrite (str_join_length_sep 95 32).
  - intros c rest Heq. destruct Hwords as [|w words Hw Hwords]; [done|].
    destruct (str_join_words_head (py "_") w words Hw) as (c' & r & Heq' & Hc).
    rewrite Heq in Heq'. injection Heq' as -> _.
    apply word_char_facts in Hc as (_ & _ & H95 & H46).
    unfold dot_or_underscore.
    by rewrite (proj2 (N.eqb_neq _ _) H95), (proj2 (N.eqb_neq _ _) H46).
  - intros c init Heq.
    destruct (str_join_words_last (py "_") words Hne Hwords)
      as (init' & c' & Heq' & Hc).
    rewrite Heq in Heq'. apply app_inj_tail in Heq' as [_ ->].
    apply word_char_facts in Hc as (_ & _ & H95 & H46).
    unfold dot_or_underscore.
    by rewrite (proj2 (N.eqb_neq _ _) H95), (proj2 (N.eqb_neq _ _) H46).
Qed.

Lemma strip_md_suffix s :
  (∀ c, c ∈ s → c ≠ 46) → str_replace (py ".md") [] (s ++ py ".md") = s.
Proof.
  unfold str_replace. induction s as [|c s IH]; intros Hs; [done|].
  cbn [app]. rewrite sub_scan_skip.
  - f_equal. apply IH. intros c' Hc'. apply Hs. by apply list_elem_of_further.
  - change (py ".md") with [46; 109; 100]. cbn [after_prefix].
    rewrite (proj2 (N.eqb_neq 46 c)); [done|].
    intros Heq. by apply (Hs c (list_elem_of_here _ _)).
Qed.

Lemma underscores_to_spaces s :
  str_replace (py "_") (py " ") s = (λ c, if c =? 95 then 32 else c) <$> s.
Proof.
  unfold str_replace. change (py "_") with [95]. change (py " ") with [32].
  induction s as [|c s IH]; [done|]. cbn [fmap list_fmap].
  destruct (c =? 95) eqn:E.
  - apply N.eqb_eq in E. subst c. rewrite (sub_scan_match _ _ _ _ s).
    + by rewrite IH.
    + by apply after_prefix_consuming.
    + done.
  - rewrite sub_scan_skip; [by rewrite IH|].
    cbn [after_prefix]. by rewrite N.eqb_sym, E.
Qed.

Lemma spaces_for_underscores words :
  Forall plain_word words →
  (λ c, if c =? 95 then 32 else c) <$> str_join [95] words
  = str_join [32] words.
Proof.
  assert (∀ w, plain_word w → (λ c, if c =? 95 then 32 else c) <$> w = w)
    as Hword.
  { intros w [_ Hw]. induction w as [|c w IH]; [done|].
    cbn [fmap list_fmap].
    destruct (word_char_facts c (Hw c (list_elem_of_here _ _)))
      as (_ & _ & H95 & _).
    rewrite (proj2 (N.eqb_neq _ _) H95). f_equal. apply IH.
    intros c' Hc'. apply Hw. by apply list_elem_of_further. }
  induction 1 as [|w words Hw Hwords IH]; [done|].
  destruct words as [|w' words].
  - cbn [str_join]. by apply Hword.
  - rewrite !str_join_cons, !fmap_app, IH, Hword by done. done.
Qed.

(** X20.  A title of plain words (no hostile character, no dot, no
    underscore) joined by single spaces, of at most 100 characters, is
    found again as the heading of its chapter in the combined file: the
    way from the title over the filename to the heading loses nothing. *)
Theorem heading_round_trip (words : list str) :
  words ≠ [] →
  Forall plain_word words →
  (length (str_join (py " ") words) ≤ 100)%nat →
  chapter_heading (chapter_filename (str_join (py " ") words))
  = str_join (py " ") words.
Proof.
  intros Hne Hwords Hlen. unfold chapter_heading, chapter_filename.
  rewrite sanitize_plain_words by done.
  rewrite strip_md_suffix.
  - rewrite underscores_to_spaces. change (py "_") with [95].
    change (py " ") with [32]. by apply spaces_for_underscores.
  - intros c [Hc|(w & Hw & Hc)]%str_join_elem.
    + change (py "_") with [95] in Hc.
      by apply list_elem_of_singleton in Hc as ->.
    + eapply Forall_forall in Hwords as [_ Hchars]; [|done].
      by apply Hchars, word_char_facts in Hc as (_ & _ & _ & ?).
Qed.

Lemma heading_round_trip_witness :
  chapter_heading (chapter_filename (str_join (py " ") [py "Getting"; py "Started"]))
  = str_join (py " ") [py "Getting"; py "Started"].
Proof.
  apply heading_round_trip.
  - done.
  - repeat constructor; try done; intros c Hc; unfold py in Hc; simpl in Hc;
      repeat (apply elem_of_cons in Hc as [->|Hc]; [done|]);
      by apply elem_of_nil in Hc.
  - vm_compute. lia.
Defined.

(** ** The further properties on the sample site *)

Lemma fetch_page_returns_iff_witness :
  _fetch_page (H := sample_site) true sample_welcome_url
  = Ok sample_welcome_page.
Proof.
  apply (fetch_page_returns_iff (H := sample_site)).
  split; [reflexivity|]. exists (py "OK"). vm_compute. reflexivity.
Defined.

Lemma discovery_fails_iff_witness : sample_links ≠ [].
Proof.
  apply (proj2 (discovery_fails_iff (H := sample_site) default_config
                  (py "toc"))).
  vm_compute. reflexivity.
Defined.

Lemma results_one_per_filename_witness :
  original_index sample_links (py "Welcome.md") = Some 0%nat.
Proof.
  apply (proj1 (results_one_per_filename (H := sample_site) sample_links
                 false sample_clock [2; 0; 1]%nat ∅ ∅)
           0%nat (py "Welcome.md") (clean_markdown sample_welcome_page)).
  vm_compute. reflexivity.
Defined.

Lemma last_completed_wins_witness :
  ∃ i0,
    original_index
      [(py "A B", sample_welcome_url); (py "A_B", base_url default_config)]
      (chapter_filename (py "A_B")) = Some i0
    ∧ (i0 ≤ 1)%nat
    ∧ results_dict
        (process_all (H := sample_site)
           [(py "A B", sample_welcome_url); (py "A_B", base_url default_config)]
           false sample_clock ([0] ++ 1 :: [])%nat (start ∅ ∅)) !! i0
      = Some (chapter_filename (py "A_B"), py "toc").
Proof.
  apply (last_completed_wins (H := sample_site)
           [(py "A B", sample_welcome_url); (py "A_B", base_url default_config)]
           false sample_clock [0]%nat []%nat 1%nat (py "A_B")
           (base_url default_config)).
  - reflexivity.
  - vm_compute. reflexivity.
  - intros k t u Hk. by apply elem_of_nil in Hk.
  - vm_compute. reflexivity.
Defined.

Lemma changed_in_completion_order_witness :
  changed_chapters
    (process_all (H := sample_site) sample_links false sample_clock
       [2; 0; 1]%nat (start ∅ ∅))
  = omap (reported_changed (H := sample_site) sample_links ∅) [2; 0; 1]%nat.
Proof.
  apply (changed_in_completion_order (H := sample_site)).
  - apply (bool_decide_unpack _). vm_compute. exact I.
  - apply (bool_decide_unpack _). vm_compute. exact I.
  - vm_compute. reflexivity.
Defined.

Lemma first_run_reports_every_chapter_witness :
  changed_chapters
    (process_all (H := sample_site) sample_links false sample_clock
       [2; 0; 1]%nat (start (_load_metadata None) ∅))
  = omap (λ i, sample_links !! i
               ≫= λ link, fst <$> chapter_result (H := sample_site) link)
      [2; 0; 1]%nat.
Proof.
  apply (first_run_reports_every_chapter (H := sample_site)).
  - intros content. discriminate.
  - apply (bool_decide_unpack _). vm_compute. exact I.
  - apply (bool_decide_unpack _). vm_compute. exact I.
  - vm_compute. reflexivity.
Defined.

Lemma ledger_keeps_other_entries_witness :
  metadata
    (process_all (H := sample_site) sample_links false sample_clock
       [2; 0; 1]%nat (start ∅ ∅)) !! py "https://example.org/"
  = metadata (start ∅ ∅) !! py "https://example.org/".
Proof.
  apply (proj2 (ledger_keeps_other_entries (H := sample_site) sample_links
                  false sample_clock [2; 0; 1]%nat (start ∅ ∅))).
  apply (bool_decide_unpack _). vm_compute. exact I.
Defined.

Lemma ledger_stays_consistent_witness :
  consistent
    (metadata
       (process_all (H := sample_site) sample_links false sample_clock
          [2; 0; 1]%nat (start ∅ ∅))).
Proof.
  apply (ledger_stays_consistent (H := sample_site)).
  intros url e He. exfalso.
  exact (lookup_empty_Some (M := gmap str) (A := entry) url e He).
Defined.

Lemma dry_run_writes_nothing_witness :
  ∃ report,
    run (H := sample_site) default_config true None ∅ sample_clock
      [2; 0; 1]%nat = Returned report
    ∧ report_metadata_file report = None
    ∧ chapter_files (report_state report) = ∅.
Proof.
  destruct (run (H := sample_site) default_config true None ∅ sample_clock
              [2; 0; 1]%nat) as [report| | |] eqn:Hrun;
    [|vm_compute in Hrun; discriminate Hrun..].
  exists report. split; [reflexivity|].
  exact (dry_run_writes_nothing (H := sample_site) default_config None ∅
           sample_clock [2; 0; 1]%nat report Hrun).
Defined.

Lemma only_chapter_files_written_witness :
  chapter_files
    (process_all (H := sample_site) sample_links false sample_clock
       [2; 0; 1]%nat (start ∅ ∅)) !! py "Missing.md"
  = chapter_files (start ∅ ∅) !! py "Missing.md".
Proof.
  apply (only_chapter_files_written (H := sample_site)).
  intros t u c Hin Hc. unfold sample_links in Hin.
  repeat (apply elem_of_cons in Hin as [[= -> ->]|Hin]);
    [discriminate|vm_compute in Hc; discriminate Hc..|].
  by apply elem_of_nil in Hin.
Defined.

Lemma every_chapter_accounted_witness :
  (length (ordered_results
             (results_dict
                (process_all (H := sample_site) sample_links false
                   sample_clock [2; 0; 1]%nat (start ∅ ∅))))
   + length (warnings
               (process_all (H := sample_site) sample_links false
                  sample_clock [2; 0; 1]%nat (start ∅ ∅)))
   = length sample_links)%nat.
Proof.
  apply (every_chapter_accounted (H := sample_site)).
  - apply (bool_decide_unpack _). vm_compute. exact I.
  - apply (bool_decide_unpack _). vm_compute. exact I.
  - vm_compute. reflexivity.
Defined.

Lemma permits_all_returned_witness :
  (Gate.permits
     {| Gate.permits := 1;
        Gate.tasks := [Gate.Completed; Gate.Failed] |} ≤ 1)%nat
  ∧ (Forall Gate.finished [Gate.Completed; Gate.Failed] →
     Gate.permits
       {| Gate.permits := 1;
          Gate.tasks := [Gate.Completed; Gate.Failed] |} = 1%nat).
Proof.
  apply (permits_all_returned 1 2
           [Gate.Acquire 1; Gate.Fail 1; Gate.Acquire 0; Gate.Return 0]).
  reflexivity.
Defined.

Lemma one_fetch_per_chapter_witness :
  (endings 1 [Gate.Acquire 1; Gate.Fail 1; Gate.Acquire 0]
   ≤ admissions 1 [Gate.Acquire 1; Gate.Fail 1; Gate.Acquire 0])%nat
  ∧ (admissions 1 [Gate.Acquire 1; Gate.Fail 1; Gate.Acquire 0] ≤ 1)%nat.
Proof.
  apply (one_fetch_per_chapter 1 2
           [Gate.Acquire 1; Gate.Fail 1; Gate.Acquire 0]
           {| Gate.permits := 0;
              Gate.tasks := [Gate.Fetching; Gate.Failed] |}).
  reflexivity.
Defined.

Lemma gate_never_stuck_witness :
  ∃ trace' st',
    Gate.exec
      {| Gate.permits := 0; Gate.tasks := [Gate.Fetching; Gate.Failed] |}
      trace' = Some st'
    ∧ Forall Gate.finished (Gate.tasks st').
Proof.
  apply (gate_never_stuck 1 2 [Gate.Acquire 1; Gate.Fail 1; Gate.Acquire 0]).
  - lia.
  - reflexivity.
Defined.

(** ** What the clean-up keeps and what it leaves *)

Lemma star_greedy_takes_space p (k : matcher) :
  (∀ c, p c = true → is_space c = true) →
  (∀ s r, k s = Some r → ∃ w, s = w ++ r ∧ all_space w) →
  ∀ s r, star_greedy p k s = Some r → ∃ w, s = w ++ r ∧ all_space w.
Proof.
  intros Hp Hk s. induction s as [|c s IH]; intros r Hr; cbn [star_greedy] in Hr.
  - by apply Hk.
  - destruct (p c) eqn:Hc; [|by apply Hk].
    destruct (star_greedy p k s) as [r'|] eqn:E; [|by apply Hk].
    injection Hr as ->. destruct (IH r eq_refl) as (w & -> & Hw).
    exists (c :: w). split; [done|]. constructor; [by apply Hp|done].
Qed.

Lemma match_here_takes_space pat :
  spacey pat →
  ∀ s r, match_here pat s = Some r → ∃ w, s = w ++ r ∧ all_space w.
Proof.
  induction 1 as [|a pat Ha Hpat IH]; intros s r Hr.
  - injection Hr as ->. exists []. split; [done|constructor].
  - destruct a as [p|p|p]; cbn [match_here atom_class] in *.
    + destruct s as [|c s]; [done|]. destruct (p c) eqn:Hc; [|done].
      destruct (IH s r Hr) as (w & -> & Hw).
      exists (c :: w). split; [done|]. constructor; [by apply Ha|done].
    + by apply (star_greedy_takes_space p _ Ha IH).
    + destruct s as [|c s]; [done|]. destruct (p c) eqn:Hc; [|done].
      destruct (star_greedy_takes_space p _ Ha IH s r Hr) as (w & -> & Hw).
      exists (c :: w). split; [done|]. constructor; [by apply Ha|done].
Qed.

Lemma solid_text_all_space w : all_space w → solid_text w = [].
Proof.
  unfold solid_text. induction 1 as [|c w Hc Hw IH]; [done|].
  rewrite filter_cons_False; [done|]. by rewrite Hc.
Qed.

Lemma solid_text_app x y : solid_text (x ++ y) = solid_text x ++ solid_text y.
Proof. apply filter_app. Qed.

Lemma re_sub_solid_text pat repl s :
  spacey pat → (0 < min_length pat)%nat → all_space repl →
  solid_text (re_sub pat repl s) = solid_text s.
Proof.
  intros Hpat Hpos Hrepl. unfold re_sub.
  remember (length s) as n eqn:Hn. revert s Hn.
  induction (lt_wf n) as [n _ IH]. intros s ->.
  destruct s as [|c s]; [done|].
  destruct (match_here pat (c :: s)) as [r|] eqn:E.
  - rewrite (sub_scan_match _ _ _ _ r) by (by try apply match_here_consuming).
    pose proof (match_here_length _ _ _ E) as Hlen.
    destruct (match_here_takes_space pat Hpat _ _ E) as (w & Hs & Hw).
    rewrite Hs, !solid_text_app.
    rewrite (solid_text_all_space repl), (solid_text_all_space w) by done.
    cbn [app]. eapply IH; [|done]. lia.
  - rewrite sub_scan_skip by done. unfold solid_text.
    rewrite !filter_cons. destruct (decide (is_space c = false)).
    + f_equal. eapply IH; [|done]. simpl. lia.
    + eapply IH; [|done]. simpl. lia.
Qed.

Lemma lstrip_solid_text s : solid_text (lstrip is_space s) = solid_text s.
Proof.
  induction s as [|c s IH]; [done|]. cbn [lstrip].
  destruct (is_space c) eqn:E; [|done].
  rewrite IH. unfold solid_text. rewrite filter_cons_False; [done|].
  by rewrite E.
Qed.

Lemma py_strip_solid_text s : solid_text (py_strip is_space s) = solid_text s.
Proof.
  unfold py_strip, rstrip, solid_text.
  rewrite filter_reverse. fold (solid_text (lstrip is_space (reverse (lstrip is_space s)))).
  rewrite lstrip_solid_text. unfold solid_text.
  rewrite filter_reverse, reverse_involutive.
  apply lstrip_solid_text.
Qed.

Lemma newlines_app x y : newlines (x ++ y) = (newlines x + newlines y)%nat.
Proof. unfold newlines. by rewrite filter_app, length_app. Qed.

Lemma newlines_cons c s :
  newlines (c :: s) = ((if is_newline c then 1 else 0) + newlines s)%nat.
Proof.
  unfold newlines. rewrite filter_cons.
  destruct (is_newline c); by rewrite ?decide_True, ?decide_False by done.
Qed.

Lemma is_newline_NL c : is_newline c = true → c = NL.
Proof. by intros ?%N.eqb_eq. Qed.

Lemma newlines_elem s : NL ∈ s ↔ (1 ≤ newlines s)%nat.
Proof.
  induction s as [|c s IH].
  - split; [by intros ?%elem_of_nil|]. cbn. lia.
  - rewrite newlines_cons, elem_of_cons, IH.
    destruct (is_newline c) eqn:E.
    + apply is_newline_NL in E. split; [lia|by left].
    + split; [|lia]. intros [Heq|?]; [|lia]. by rewrite <-Heq in E.
Qed.

Lemma horizontal_of h : all_space h → newlines h = 0%nat → horizontal h.
Proof.
  induction 1 as [|c h Hc Hh IH]; [constructor|].
  rewrite newlines_cons. intros Hn. destruct (is_newline c) eqn:E; [lia|].
  constructor; [done|]. apply IH. lia.
Qed.

Lemma first_newline s :
  (1 ≤ newlines s)%nat →
  ∃ pre post, s = pre ++ NL :: post ∧ newlines pre = 0%nat.
Proof.
  induction s as [|c s IH]; [cbn; lia|].
  rewrite newlines_cons. destruct (is_newline c) eqn:E.
  - intros _. apply is_newline_NL in E as ->. by exists [], s.
  - intros Hn. destruct IH as (pre & post & -> & Hpre); [lia|].
    exists (c :: pre), post. split; [done|].
    rewrite newlines_cons, E. lia.
Qed.

Lemma last_newline s :
  (1 ≤ newlines s)%nat →
  ∃ pre post, s = pre ++ NL :: post ∧ newlines post = 0%nat.
Proof.
  induction s as [|c s IH]; [cbn; lia|].
  rewrite newlines_cons. intros Hn.
  destruct (decide (1 ≤ newlines s)%nat) as [Hs|Hs].
  - destruct (IH Hs) as (pre & post & -> & Hpost).
    by exists (c :: pre), post.
  - destruct (is_newline c) eqn:E; [|lia].
    apply is_newline_NL in E as ->. exists [], s. split; [done|lia].
Qed.

(** A match of the pattern takes three newlines. *)
Lemma star_greedy_takes_newlines p (k : matcher) n :
  (∀ s r, k s = Some r → ∃ w, s = w ++ r ∧ (n ≤ newlines w)%nat) →
  ∀ s r, star_greedy p k s = Some r → ∃ w, s = w ++ r ∧ (n ≤ newlines w)%nat.
Proof.
  intros Hk s. induction s as [|c s IH]; intros r Hr; cbn [star_greedy] in Hr.
  - by apply Hk.
  - destruct (p c); [|by apply Hk].
    destruct (star_greedy p k s) as [r'|] eqn:E; [|by apply Hk].
    injection Hr as ->. destruct (IH r eq_refl) as (w & -> & Hw).
    exists (c :: w). split; [done|]. rewrite newlines_cons. lia.
Qed.

Lemma one_newline_takes_newlines pat n :
  (∀ s r, match_here pat s = Some r →
          ∃ w, s = w ++ r ∧ (n ≤ newlines w)%nat) →
  ∀ s r, match_here (One is_newline :: pat) s = Some r →
         ∃ w, s = w ++ r ∧ (S n ≤ newlines w)%nat.
Proof.
  intros Hk s r Hr. cbn [match_here] in Hr.
  destruct s as [|c s]; [done|]. destruct (is_newline c) eqn:E; [|done].
  destruct (Hk s r Hr) as (w & -> & Hw). exists (c :: w).
  split; [done|]. rewrite newlines_cons, E. lia.
Qed.

Lemma RE_BLANKS_takes_newlines s r :
  match_here RE_BLANKS s = Some r →
  ∃ w, s = w ++ r ∧ (3 ≤ newlines w)%nat.
Proof.
  revert s r. unfold RE_BLANKS.
  apply one_newline_takes_newlines.
  apply (star_greedy_takes_newlines is_space
           (match_here [One is_newline; Star is_space; One is_newline])).
  apply one_newline_takes_newlines.
  apply (star_greedy_takes_newlines is_space (match_here [One is_newline])).
  apply one_newline_takes_newlines.
  intros s r [= ->]. exists []. split; [done|cbn; lia].
Qed.

Lemma sub_scan_no_match m repl s :
  (∀ a u, s = a ++ u → m u = None) → sub_scan m repl s = s.
Proof.
  induction s as [|c s IH]; intros Hnone; [done|].
  rewrite sub_scan_skip by apply (Hnone []), eq_refl.
  f_equal. apply IH. intros a u ->. by apply (Hnone (c :: a)).
Qed.

Lemma collapse_few_newlines s :
  (newlines s ≤ 2)%nat → collapse_blanks s = s.
Proof.
  intros Hn. apply sub_scan_no_match. intros a u ->.
  destruct (match_here RE_BLANKS u) as [r|] eqn:E; [|done].
  apply RE_BLANKS_takes_newlines in E as (w & -> & Hw).
  rewrite !newlines_app in Hn. lia.
Qed.

(** What the clean-up makes of a run of whitespace. *)
Lemma collapse_run w :
  all_space w →
  all_space (collapse_blanks w) ∧ (newlines (collapse_blanks w) ≤ 2)%nat.
Proof.
  intros Hw. split.
  { apply re_sub_all_space; [apply RE_BLANKS_min|by repeat constructor|done]. }
  destruct (decide (newlines w ≤ 2)%nat) as [Hn|Hn].
  { by rewrite collapse_few_newlines. }
  destruct (first_newline w) as (pre & w1 & -> & Hpre); [lia|].
  rewrite newlines_app, newlines_cons in Hn. change (is_newline NL) with true in Hn. cbn iota in Hn.
  destruct (last_newline w1) as (x & h & -> & Hh); [lia|].
  rewrite newlines_app, newlines_cons in Hn. change (is_newline NL) with true in Hn. cbn iota in Hn.
  apply Forall_app in Hw as [Hwpre Hw]. apply Forall_cons in Hw as [_ Hw].
  apply Forall_app in Hw as [Hx Hw]. apply Forall_cons in Hw as [_ Hwh].
  rewrite collapse_horizontal by by apply horizontal_of.
  replace (NL :: x ++ NL :: h) with ((NL :: x ++ [NL]) ++ h)
    by (cbn [app]; by rewrite <-app_assoc).
  rewrite collapse_blank_lines.
  - rewrite !newlines_app, Hpre, Hh.
    assert (newlines [NL; NL] = 2%nat) as -> by (vm_compute; reflexivity).
    lia.
  - apply more_blank_lines; [done|]. apply newlines_elem. lia.
  - by apply horizontal_of.
Qed.

Lemma space_then_rest s :
  all_space s ∨ ∃ w d rest, s = w ++ d :: rest ∧ all_space w ∧ is_space d = false.
Proof.
  induction s as [|c s IH]; [left; constructor|].
  destruct (is_space c) eqn:E.
  - destruct IH as [Hs|(w & d & rest & -> & Hw & Hd)].
    + left. by constructor.
    + right. exists (c :: w), d, rest. split_and!; [done| |done].
      by constructor.
  - right. exists [], c, s. split_and!; [done|constructor|done].
Qed.

Lemma collapse_collapse s :
  collapse_blanks (collapse_blanks s) = collapse_blanks s.
Proof.
  remember (length s) as n eqn:Hn. revert s Hn.
  induction (lt_wf n) as [n _ IH]. intros s ->.
  destruct (space_then_rest s) as [Hs|(w & d & rest & -> & Hw & Hd)].
  - apply collapse_few_newlines. by apply collapse_run.
  - assert (starts_solid (d :: rest) = true) as Hsolid
      by (simpl; by rewrite Hd).
    rewrite collapse_app_starts_solid, collapse_solid by done.
    rewrite collapse_app_starts_solid, collapse_solid
      by (done || (simpl; by rewrite Hd)).
    rewrite (collapse_few_newlines (collapse_blanks w)) by by apply collapse_run.
    do 2 f_equal. eapply IH; [|done]. rewrite length_app. simpl. lia.
Qed.

(** A match is not lost when more text follows. *)
Lemma star_greedy_fallback p (k : matcher) s :
  is_Some (k s) → is_Some (star_greedy p k s).
Proof.
  intros Hk. destruct s as [|c s]; [done|]. cbn [star_greedy].
  destruct (p c); [|done]. by destruct (star_greedy p k s).
Qed.

Lemma star_greedy_extend p (k : matcher) z :
  (∀ u, is_Some (k u) → is_Some (k (u ++ z))) →
  ∀ u, is_Some (star_greedy p k u) → is_Some (star_greedy p k (u ++ z)).
Proof.
  intros Hk u. induction u as [|c u IH]; intros Hu.
  - apply star_greedy_fallback, (Hk []), Hu.
  - cbn [app star_greedy] in *. destruct (p c); [|by apply (Hk (c :: u))].
    destruct (star_greedy p k u) as [r|] eqn:E.
    + destruct (IH (mk_is_Some _ _ eq_refl)) as [r' ->]. done.
    + destruct (star_greedy p k (u ++ z)); [done|]. by apply (Hk (c :: u)).
Qed.

Lemma match_here_extend pat z :
  ∀ u, is_Some (match_here pat u) → is_Some (match_here pat (u ++ z)).
Proof.
  induction pat as [|[p|p|p] pat IH]; intros u Hu; cbn [match_here] in *.
  - done.
  - destruct u as [|c u]; [by destruct Hu|]. cbn [app].
    destruct (p c); [by apply IH|done].
  - by apply star_greedy_extend.
  - destruct u as [|c u]; [by destruct Hu|]. cbn [app].
    destruct (p c); [by apply star_greedy_extend|done].
Qed.

Lemma re_sub_length pat repl s :
  (length repl ≤ min_length pat)%nat → (0 < min_length pat)%nat →
  (length (re_sub pat repl s) ≤ length s)%nat.
Proof.
  intros Hrepl Hpos. unfold re_sub.
  remember (length s) as n eqn:Hn. revert s Hn.
  induction (lt_wf n) as [n _ IH]. intros s ->.
  destruct s as [|c s]; [done|].
  destruct (match_here pat (c :: s)) as [r|] eqn:E.
  - rewrite (sub_scan_match _ _ _ _ r) by (by try apply match_here_consuming).
    pose proof (match_here_length _ _ _ E) as Hlen.
    rewrite length_app.
    assert (length (sub_scan (match_here pat) repl r) ≤ length r)%nat
      by (eapply IH; [|done]; lia).
    lia.
  - rewrite sub_scan_skip by done. cbn [length].
    assert (length (sub_scan (match_here pat) repl s) ≤ length s)%nat
      by (eapply IH; [|done]; simpl; lia).
    lia.
Qed.

Lemma re_sub_shrinks pat repl a u :
  (length repl < min_length pat)%nat →
  is_Some (match_here pat u) →
  (length (re_sub pat repl (a ++ u)) < length (a ++ u))%nat.
Proof.
  intros Hrepl Hu. induction a as [|c a IH].
  - destruct u as [|c u].
    { destruct Hu as [r Hr]. apply match_here_length in Hr. simpl in Hr. lia. }
    destruct Hu as [r Hr]. unfold re_sub. cbn [app].
    rewrite (sub_scan_match _ _ _ _ r);
      [|apply match_here_consuming; lia|done].
    pose proof (match_here_length _ _ _ Hr) as Hlen.
    pose proof (re_sub_length pat repl r) as Hle. unfold re_sub in Hle.
    rewrite length_app. lia.
  - cbn [app]. unfold re_sub.
    destruct (match_here pat (c :: a ++ u)) as [r|] eqn:E.
    + rewrite (sub_scan_match _ _ _ _ r);
        [|apply match_here_consuming; lia|done].
      pose proof (match_here_length _ _ _ E) as Hlen.
      pose proof (re_sub_length pat repl r) as Hle. unfold re_sub in Hle.
      rewrite length_app. lia.
    + rewrite sub_scan_skip by done. unfold re_sub in IH. cbn [length]. lia.
Qed.

(** A text the clean-up leaves alone holds no run of whitespace with
    three newlines. *)
Lemma settled_runs t a w b :
  collapse_blanks t = t → t = a ++ w ++ b → all_space w →
  (newlines w ≤ 2)%nat.
Proof.
  intros Hfix -> Hw. destruct (decide (newlines w ≤ 2)%nat) as [|Hn]; [done|].
  exfalso.
  destruct (first_newline w) as (pre & w1 & -> & Hpre); [lia|].
  rewrite newlines_app, newlines_cons in Hn.
  change (is_newline NL) with true in Hn. cbn iota in Hn.
  destruct (first_newline w1) as (x1 & w2 & -> & Hx1); [lia|].
  rewrite newlines_app, newlines_cons in Hn.
  change (is_newline NL) with true in Hn. cbn iota in Hn.
  destruct (first_newline w2) as (x2 & post & -> & Hx2); [lia|].
  apply Forall_app in Hw as [_ Hw]. apply Forall_cons in Hw as [_ Hw].
  apply Forall_app in Hw as [Hwx1 Hw]. apply Forall_cons in Hw as [_ Hw].
  apply Forall_app in Hw as [Hwx2 _].
  assert (is_Some (match_here RE_BLANKS (NL :: (x1 ++ NL :: x2) ++ [NL])))
    as Hmatch.
  { pose proof (two_newlines_then_rest (x1 ++ NL :: x2) []) as Hsome.
    rewrite bool_decide_true in Hsome.
    - cbn [RE_BLANKS match_here]. unfold RE_BLANKS. cbn [match_here].
      change (is_newline NL) with true. cbn iota.
      eexists. apply Hsome; [|constructor].
      apply Forall_app. split; [done|]. by constructor.
    - apply elem_of_app. right. apply list_elem_of_here. }
  apply (match_here_extend _ (post ++ b)) in Hmatch.
  pose proof (re_sub_shrinks RE_BLANKS [NL; NL] (a ++ pre) _
                ltac:(simpl; lia) Hmatch) as Hlt.
  fold (collapse_blanks ((a ++ pre) ++
          (NL :: (x1 ++ NL :: x2) ++ [NL]) ++ post ++ b)) in Hlt.
  replace ((a ++ pre) ++ (NL :: (x1 ++ NL :: x2) ++ [NL]) ++ post ++ b)
    with (a ++ (pre ++ NL :: x1 ++ NL :: x2 ++ NL :: post) ++ b) in Hlt.
  - rewrite Hfix in Hlt. lia.
  - repeat first [progress cbn [app] | rewrite <-app_assoc]. done.
Qed.

Lemma solid_text_nil s : solid_text s = [] → all_space s.
Proof.
  unfold solid_text. induction s as [|c s IH]; [constructor|].
  rewrite filter_cons. destruct (decide (is_space c = false)) as [|Hc]; [done|].
  intros Hs. constructor; [by destruct (is_space c)|by apply IH].
Qed.

(** X21.  The clean-up touches whitespace only: the characters of the
    cleaned Markdown that are not whitespace are those of the converted
    Markdown, in their order, and the cleaned Markdown is empty exactly
    when the converted Markdown is whitespace throughout. *)
Theorem clean_markdown_keeps_text (markdown_content : str) :
  solid_text (clean_markdown markdown_content) = solid_text markdown_content
  ∧ (clean_markdown markdown_content = [] ↔ all_space markdown_content).
Proof.
  assert (solid_text (clean_markdown markdown_content)
          = solid_text markdown_content) as Htext.
  { unfold clean_markdown. rewrite py_strip_solid_text.
    apply re_sub_solid_text;
      [apply RE_BLANKS_spacey|apply RE_BLANKS_min|by repeat constructor]. }
  split; [done|]. split.
  - intros Hnil. apply solid_text_nil. by rewrite <-Htext, Hnil.
  - intros Hs. apply solid_text_all_space in Hs. rewrite <-Htext in Hs.
    destruct (clean_markdown markdown_content) as [|c rest] eqn:E; [done|].
    apply py_strip_head in E. unfold solid_text in Hs.
    by rewrite filter_cons_True in Hs.
Qed.

Lemma py_strip_infix p s : ∃ lead trail, s = lead ++ py_strip p s ++ trail.
Proof.
  destruct (lstrip_suffix p s) as [lead Hlead].
  destruct (rstrip_prefix p (lstrip p s)) as [trail Htrail].
  exists lead, trail. unfold py_strip. by rewrite <-Htrail.
Qed.

Lemma py_strip_settled s :
  collapse_blanks s = s →
  collapse_blanks (py_strip is_space s) = py_strip is_space s.
Proof.
  intros Hfix. destruct (py_strip_infix is_space s) as (lead & trail & Hs).
  apply sub_scan_no_match. intros a u Hau.
  destruct (match_here RE_BLANKS u) as [r|] eqn:E; [|done]. exfalso.
  pose proof (match_here_extend RE_BLANKS trail u (mk_is_Some _ _ E)) as Hm.
  pose proof (re_sub_shrinks RE_BLANKS [NL; NL] (lead ++ a) _
                ltac:(simpl; lia) Hm) as Hlt.
  fold (collapse_blanks ((lead ++ a) ++ u ++ trail)) in Hlt.
  replace ((lead ++ a) ++ u ++ trail) with s in Hlt; [rewrite Hfix in Hlt; lia|].
  rewrite Hs at 1. rewrite Hau. by rewrite <-!app_assoc.
Qed.

(** X22.  The clean-up is idempotent: cleaning Markdown that is already
    cleaned changes nothing. *)
Theorem clean_markdown_idempotent (markdown_content : str) :
  clean_markdown (clean_markdown markdown_content)
  = clean_markdown markdown_content.
Proof.
  unfold clean_markdown at 1. fold (collapse_blanks (clean_markdown markdown_content)).
  unfold clean_markdown. fold (collapse_blanks markdown_content).
  rewrite py_strip_settled by apply collapse_collapse.
  apply py_strip_unchanged.
  - intros c rest. apply py_strip_head.
  - intros c init. apply py_strip_last.
Qed.

Section MoreExtraction.

Context `{Capabilities}.

(** X23.  What [_extract_content] returns neither begins nor ends with
    whitespace, and none of its runs of whitespace holds more than two
    newlines. *)
Theorem extracted_content_is_clean (html content : str) :
  _extract_content html = Ok content →
  (∀ c rest, content = c :: rest → is_space c = false)
  ∧ (∀ init c, content = init ++ [c] → is_space c = false)
  ∧ (∀ a w b, content = a ++ w ++ b → all_space w → (newlines w ≤ 2)%nat).
Proof.
  unfold _extract_content.
  destruct (main_markdown html) as [m|]; [|done]. intros [= <-].
  split_and!.
  - intros c rest. apply py_strip_head.
  - intros init c. apply py_strip_last.
  - intros a w b Hc Hw.
    destruct (py_strip_infix is_space (collapse_blanks m))
      as (lead & trail & Hm).
    apply (settled_runs (collapse_blanks m) (lead ++ a) w (b ++ trail));
      [apply collapse_collapse| |done].
    rewrite Hm at 1. unfold clean_markdown in Hc.
    fold (collapse_blanks m) in Hc. rewrite Hc. by rewrite <-!app_assoc.
Qed.

End MoreExtraction.

Lemma extracted_content_is_clean_witness :
  (newlines [NL; NL] ≤ 2)%nat.
Proof.
  apply (proj2 (proj2
           (extracted_content_is_clean (H := sample_site) sample_welcome_page
              (py "Welcome" ++ [NL; NL] ++ py "to Omarchy") eq_refl))
           (py "Welcome") [NL; NL] (py "to Omarchy") eq_refl).
  by repeat constructor.
Defined.

Lemma clean_markdown_keeps_text_witness :
  clean_markdown [NL; 32; NL] = [].
Proof.
  apply (clean_markdown_keeps_text [NL; 32; NL]). by repeat constructor.
Defined.

Section FilesAndResults.

Context `{Capabilities}.

(** X24.  In a run that saves, at the end of a loop that no exception
    has left, the chapter files agree with the results that go into the
    combined file: for every entry of the ordered results the file of
    that name holds the content of the entry, whatever the titles and
    whatever the order of completion. *)
Theorem chapter_files_match_results
    (links : list (str * str)) (clock : nat → str) (order : list nat)
    (m : ledger) (files : gmap str str) (f c : str) :
  raised (process_all links false clock order (start m files)) = None →
  (f, c) ∈ ordered_results
             (results_dict (process_all links false clock order (start m files))) →
  chapter_files (process_all links false clock order (start m files)) !! f
  = Some c.
Proof.
  unfold ordered_results. intros Hfin (k & _ & Hk)%list_elem_of_omap.
  revert k f c Hk.
  assert (∀ k f c0,
            results_dict (process_all links false clock order (start m files))
              !! k = Some (f, c0) →
            original_index links f = Some k
            ∧ chapter_files (process_all links false clock order (start m files))
                !! f = Some c0) as Hinv; [|intros k f c Hk; by apply (Hinv k)].
  apply (process_all_finished_preserved
           (λ st, ∀ k f c0, results_dict st !! k = Some (f, c0) →
                            original_index links f = Some k
                            ∧ chapter_files st !! f = Some c0)); [|done|done].
  intros st j Hstep Hst k f c0.
  running_cases links false clock st j Hstep; simpl; [|by apply Hst..].
  destruct (original_index links (chapter_filename t)) as [i0|] eqn:Hi0.
  - destruct (decide (i0 = k)) as [->|Hne].
    + rewrite lookup_insert_eq. intros [= <- <-].
      by rewrite lookup_insert_eq.
    + rewrite lookup_insert_ne by done. intros Hk.
      destruct (Hst k f c0 Hk) as [Hf Hfile]. split; [done|].
      rewrite lookup_insert_ne; [done|]. intros <-. congruence.
  - intros Hk. destruct (Hst k f c0 Hk) as [Hf Hfile]. split; [done|].
    rewrite lookup_insert_ne; [done|]. intros <-. congruence.
Qed.

End FilesAndResults.

Lemma chapter_files_match_results_witness :
  chapter_files
    (process_all (H := sample_site) sample_links false sample_clock
       [2; 0; 1]%nat (start ∅ ∅)) !! py "Welcome.md"
  = Some (py "Welcome" ++ [NL; NL] ++ py "to Omarchy").
Proof.
  apply (chapter_files_match_results (H := sample_site)).
  - vm_compute. reflexivity.
  - apply (bool_decide_unpack _). vm_compute. exact I.
Defined.

(** ** The earlier scraper and the package *)

Section LegacyFacts.

Context `{Capabilities}.
Variable soup_select : Legacy.selector → str → list anchor.
Variable main_anchors : str → option (list anchor).

Lemma legacy_full_href config h :
  base_url config = Legacy.BASE_URL →
  query_param config = Legacy.QUERY_PARAM →
  Legacy.full_href h = resolve_href config h.
Proof. intros Hb Hq. unfold Legacy.full_href, resolve_href. by rewrite Hb, Hq. Qed.

Lemma legacy_add_toc_link config acc link :
  base_url config = Legacy.BASE_URL →
  query_param config = Legacy.QUERY_PARAM →
  Legacy.add_toc_link acc link = add_link config acc link.
Proof.
  intros Hb Hq. unfold Legacy.add_toc_link, add_link.
  destruct (href link) as [h|]; [|done].
  by rewrite (legacy_full_href config h Hb Hq).
Qed.

Lemma legacy_toc_tier config anchors :
  base_url config = Legacy.BASE_URL →
  query_param config = Legacy.QUERY_PARAM →
  foldl Legacy.add_toc_link [] anchors = foldl (add_link config) [] anchors.
Proof.
  intros Hb Hq. generalize (@nil (str * str)).
  induction anchors as [|a anchors IH]; intros acc; [done|].
  cbn [foldl]. by rewrite (legacy_add_toc_link config acc a Hb Hq), IH.
Qed.

(** A loop that appends what a candidate offers unless its URL is there
    already builds the list of the first candidates per URL. *)
Lemma fold_discovered (step : list (str * str) → anchor → list (str * str))
    (cand : anchor → option (str * str)) (anchors : list anchor) :
  (∀ acc a, step acc a = match cand a with
                         | Some (t, u) =>
                             if bool_decide (u ∉ acc.*2) then acc ++ [(t, u)]
                             else acc
                         | None => acc
                         end) →
  discovered (omap cand anchors) (foldl step [] anchors).
Proof.
  intros Hstep. induction anchors as [|a anchors IH] using rev_ind.
  { split; simpl; [constructor|done|set_solver|set_solver]. }
  rewrite foldl_snoc, Hstep, omap_app.
  set (acc := foldl step [] anchors) in *.
  set (cands := omap cand anchors) in *.
  destruct IH as [Hnd Hsub Hcov Hfirst].
  cbn [omap list_omap]. destruct (cand a) as [[t u]|] eqn:Hc.
  - case_bool_decide as Hu.
    + split.
      * rewrite fmap_app. apply NoDup_app. split_and!; [done| |].
        -- intros x Hx ->%list_elem_of_singleton. done.
        -- apply NoDup_singleton.
      * by apply sublist_app.
      * intros t' u' [Hin|Hin%list_elem_of_singleton]%elem_of_app;
          rewrite fmap_app, elem_of_app.
        -- left. by eapply Hcov.
        -- right. injection Hin as -> ->. set_solver.
      * intros t' u' [Hin|Hin%list_elem_of_singleton]%elem_of_app.
        -- destruct (Hfirst t' u' Hin) as (i & Hi & Hbefore).
           exists i. split; [by apply lookup_app_l_Some|].
           intros j t'' Hj. rewrite lookup_app_l.
           ++ by apply Hbefore.
           ++ apply lookup_lt_Some in Hi. lia.
        -- injection Hin as -> ->. exists (length cands). split.
           ++ by rewrite list_lookup_middle.
           ++ intros j t'' Hj. rewrite lookup_app_l by done.
              intros Hl. apply Hu. eapply Hcov. by eapply list_elem_of_lookup_2.
    + split.
      * done.
      * by apply sublist_inserts_r.
      * intros t' u' [Hin|Hin%list_elem_of_singleton]%elem_of_app.
        -- by eapply Hcov.
        -- by injection Hin as -> ->.
      * intros t' u' Hin. destruct (Hfirst t' u' Hin) as (i & Hi & Hbefore).
        exists i. split; [by apply lookup_app_l_Some|].
        intros j t'' Hj. rewrite lookup_app_l.
        -- by apply Hbefore.
        -- apply lookup_lt_Some in Hi. lia.
  - rewrite app_nil_r. by split.
Qed.

Lemma selected_tier anchors :
  discovered (omap Legacy.selected_candidate anchors)
    (foldl Legacy.add_selected_link [] anchors).
Proof.
  apply fold_discovered. intros acc a.
  unfold Legacy.add_selected_link, Legacy.selected_candidate.
  destruct (href a) as [h|]; [|done].
  by destruct (nonempty h && nonempty (text a)).
Qed.

Lemma main_tier anchors :
  discovered (omap Legacy.main_candidate anchors)
    (foldl Legacy.add_main_link [] anchors).
Proof.
  apply fold_discovered. intros acc a.
  unfold Legacy.add_main_link, Legacy.main_candidate.
  destruct (href a) as [h|]; [|done].
  by destruct (nonempty h && nonempty (text a) && (5 <? length (text a))%nat).
Qed.

Lemma toc_tier anchors :
  NoDup (foldl Legacy.add_toc_link [] anchors).*2.
Proof.
  induction anchors as [|a anchors IH] using rev_ind; [constructor|].
  rewrite foldl_snoc. unfold Legacy.add_toc_link at 1.
  destruct (href a) as [h|]; [|done].
  destruct (nonempty h && nonempty (text a)); [|done].
  case_bool_decide as Hu; [|done]. cbn [andb].
  destruct (contains NAMESPACE_MARKER (Legacy.full_href h)
            && bool_decide (clean_title (text a) ∉ [ []; py "Open" ]));
    [|done].
  rewrite fmap_app. apply NoDup_app. split_and!; [done| |apply NoDup_singleton].
  intros x Hx ->%list_elem_of_singleton. done.
Qed.

(** X25.  The package kept the discovery of the earlier scraper wherever
    the table of contents gives a chapter: with the settings of
    [config.py], every list the discovery of the package returns is
    returned by the earlier scraper as well. *)
Theorem legacy_discovery_agrees (config : Config) (session : bool)
    (links : list (str * str)) :
  base_url config = Legacy.BASE_URL →
  query_param config = Legacy.QUERY_PARAM →
  extract_chapter_links config session = Ok links →
  Legacy.extract_chapter_links soup_select main_anchors session = Ok links.
Proof.
  intros Hb Hq. unfold extract_chapter_links, Legacy.extract_chapter_links.
  rewrite Hb, Hq.
  destruct (_fetch_page session (Legacy.BASE_URL ++ Legacy.QUERY_PARAM))
    as [content|e]; [|done].
  unfold links_of_page, Legacy.links_of_page.
  rewrite (legacy_toc_tier config _ Hb Hq).
  by destruct (foldl (add_link config) [] (select_toc_links content)).
Qed.

(** X26.  Where the package gives up, the earlier scraper goes on: when
    the discovery of the package finds no chapter and the first fallback
    selector that selects anything has an anchor with an [href] and a
    text, the earlier scraper returns the first anchor per URL of that
    selector, with the text as it is and whether or not the URL holds the
    marker. *)
Theorem legacy_fallback_discovery (config : Config) (content e : str) :
  base_url config = Legacy.BASE_URL →
  query_param config = Legacy.QUERY_PARAM →
  links_of_page config content = Raise e →
  omap Legacy.selected_candidate
    (Legacy.first_selected soup_select Legacy.link_selectors content) ≠ [] →
  ∃ links,
    Legacy.links_of_page soup_select main_anchors content = Ok links
    ∧ discovered
        (omap Legacy.selected_candidate
           (Legacy.first_selected soup_select Legacy.link_selectors content))
        links.
Proof.
  intros Hb Hq Hraise Hcands.
  unfold links_of_page in Hraise. unfold Legacy.links_of_page.
  rewrite (legacy_toc_tier config _ Hb Hq).
  destruct (foldl (add_link config) [] (select_toc_links content)); [|done].
  pose proof (selected_tier
                (Legacy.first_selected soup_select Legacy.link_selectors content))
    as Hdisc.
  destruct (foldl Legacy.add_selected_link []
              (Legacy.first_selected soup_select Legacy.link_selectors content))
    as [|l links] eqn:Hfold.
  - exfalso. destruct Hdisc as [_ _ Hcov _].
    destruct (omap Legacy.selected_candidate
                (Legacy.first_selected soup_select Legacy.link_selectors content))
      as [|[t u] cands]; [done|].
    apply (not_elem_of_nil u), (Hcov t u), list_elem_of_here.
  - by exists (l :: links).
Qed.

(** X27.  Whichever tier gives the list, the list the earlier scraper
    returns is not empty and holds no URL twice. *)
Theorem legacy_discovery_distinct (content : str) (links : list (str * str)) :
  Legacy.links_of_page soup_select main_anchors content = Ok links →
  links ≠ [] ∧ NoDup links.*2.
Proof.
  unfold Legacy.links_of_page.
  pose proof (toc_tier (select_toc_links content)) as Htoc.
  destruct (foldl Legacy.add_toc_link [] (select_toc_links content))
    as [|l1 links1]; [|by intros [= <-]].
  pose proof (selected_tier
                (Legacy.first_selected soup_select Legacy.link_selectors content))
    as [Hsel _ _ _].
  destruct (foldl Legacy.add_selected_link []
              (Legacy.first_selected soup_select Legacy.link_selectors content))
    as [|l2 links2]; [|by intros [= <-]].
  destruct (main_anchors content) as [anchors|]; [|done].
  pose proof (main_tier anchors) as [Hmain _ _ _].
  destruct (foldl Legacy.add_main_link [] anchors) as [|l3 links3]; [done|].
  by intros [= <-].
Qed.

End LegacyFacts.

Lemma legacy_discovery_agrees_witness :
  Legacy.extract_chapter_links (H := sample_site) sample_select (λ _, None)
    true
  = Ok sample_links.
Proof.
  apply (legacy_discovery_agrees (H := sample_site) sample_select (λ _, None)
           default_config true sample_links eq_refl eq_refl).
  apply sample_discovery.
Defined.

Lemma legacy_fallback_discovery_witness :
  ∃ links,
    Legacy.links_of_page (H := sample_plain_site) sample_select (λ _, None)
      (py "toc") = Ok links
    ∧ discovered
        (omap (Legacy.selected_candidate (H := sample_plain_site))
           (Legacy.first_selected sample_select Legacy.link_selectors
              (py "toc")))
        links.
Proof.
  apply (legacy_fallback_discovery (H := sample_plain_site) sample_select
           (λ _, None) default_config (py "toc") _ eq_refl eq_refl eq_refl).
  vm_compute. discriminate.
Defined.

Lemma legacy_discovery_distinct_witness :
  sample_links ≠ [] ∧ NoDup sample_links.*2.
Proof.
  apply (legacy_discovery_distinct (H := sample_site) sample_select
           (λ _, None) (py "toc")).
  vm_compute. reflexivity.
Defined.
